(** * VipCall: the [useGeminiLive] session hook

    A shallow embedding of [hooks/useGeminiLive.ts]: the refs of the hook
    become one record of state, every callback of the hook becomes a
    computation over that record that may throw and that records the calls
    it makes on the platform (Web Audio, media devices, the session
    transport, the transcript observer).

    Conventions.
    - In the state machine of the hook, times ([AudioContext.currentTime],
      [AudioBuffer.duration], the argument of [source.start]) are counted
      in sample frames of the 24 kHz output context and are integers
      ([Z]).  The code's numbers are doubles in seconds: whatever depends
      on how their sums round is stated over [Timeline], which reads the
      scheduling lines with IEEE 754 doubles ([float]).
    - [Transcription] objects are shared between [transcriptionsRef], the
      two "current" refs and every array handed to the observer, so they
      live in a store indexed by object identity; a call of the observer
      is recorded with the array and with what its entries read at that
      moment.
    - [isConnected] and [isConnecting] are React state: a closure sees the
      values of the render that created it ([startSessionOf]); the
      component calls the closure of its latest render ([startSession]).
    - Each callback runs as one step: the [await]s inside [onmessage],
      [stopSession] and [switchCamera] take their outcome from the
      environment record passed to the callback.  *)

From stdpp Require Import base option list strings gmap.
From Stdlib Require Import ZArith Lia QArith Floats.

Open Scope Z_scope.

(** ** Data model *)

(** [types.ts] *)
Inductive Sender := user | ai.

Record Transcription := {
  id : string;
  sender : Sender;
  text : string;
  isFinal : bool;
}.

#[global] Instance Sender_eq_dec : EqDecision Sender.
Proof. solve_decision. Defined.

(** Platform objects the hook holds on to. *)
Inductive TrackKind := audio | video.

#[global] Instance TrackKind_eq_dec : EqDecision TrackKind.
Proof. solve_decision. Defined.

Inductive ReadyState := live | ended.

Record MediaStreamTrack := {
  trackId : nat;
  kind : TrackKind;
  readyState : ReadyState;
}.

Record MediaStream := {
  streamId : nat;
  tracks : list MediaStreamTrack;
}.

Inductive AudioContextState := suspended | running | closed.

Record AudioContext := {
  sampleRate : Z;
  state : AudioContextState;
}.

(** What [await sessionPromiseRef.current] gives. *)
Inductive SessionPromise :=
  | resolves (session : nat)
  | rejects.

(** The fields of [LiveServerMessage] that [onmessage] reads.  An absent
    [serverContent] is a message with every field absent. *)
Record Part := {
  inlineData : option string;          (* parts[i]?.inlineData?.data *)
}.

Record Content := {
  parts : option (list Part);
}.

Record LiveServerMessage := {
  inputTranscription : option (option string);   (* the object, then its text *)
  outputTranscription : option (option string);
  turnComplete : bool;
  interrupted : bool;
  modelTurn : option Content;
}.

(** ** The refs of the hook *)

Record TranscriptRefs := {
  transcriptionsRef : list nat;
  currentInputTranscriptionRef : option nat;
  currentOutputTranscriptionRef : option nat;
  (* the Transcription objects created so far, by identity: the n-th object
     created has identity n *)
  objects : gmap nat Transcription;
  created : nat;
}.

Record PlaybackRefs := {
  outputAudioContextRef : option AudioContext;
  outputGainNodeRef : option nat;
  nextStartTimeRef : Z;
  (* a JS Set iterates in insertion order *)
  audioSourcesRef : list nat;
  (* identity of the next AudioBufferSourceNode *)
  sourcesCreated : nat;
}.

Record CaptureRefs := {
  mediaStreamRef : option MediaStream;
  inputAudioContextRef : option AudioContext;
  scriptProcessorRef : option nat;
  videoElementRef : option nat;
  canvasElementRef : option nat;
  frameIntervalRef : option nat;
}.

Record SessionRefs := {
  sessionPromiseRef : option SessionPromise;
  isConnecting : bool;
  isConnected : bool;
  (* React state: the stream object handed to the UI, by identity *)
  localStream : option nat;
}.

Record Refs := {
  transcript : TranscriptRefs;
  playback : PlaybackRefs;
  capture : CaptureRefs;
  session : SessionRefs;
}.

(** Refs as [useRef]/[useState] initialise them. *)
Definition initial : Refs := {|
  transcript := {|
    transcriptionsRef := [];
    currentInputTranscriptionRef := None;
    currentOutputTranscriptionRef := None;
    objects := ∅;
    created := 0%nat |};
  playback := {|
    outputAudioContextRef := None;
    outputGainNodeRef := None;
    nextStartTimeRef := 0;
    audioSourcesRef := [];
    sourcesCreated := 0%nat |};
  capture := {|
    mediaStreamRef := None;
    inputAudioContextRef := None;
    scriptProcessorRef := None;
    videoElementRef := None;
    canvasElementRef := None;
    frameIntervalRef := None |};
  session := {|
    sessionPromiseRef := None;
    isConnecting := false;
    isConnected := false;
    localStream := None |};
|}.

(** ** Calls on the platform *)

Inductive Effect :=
  | clearInterval (timer : nat)
  | sourceStop (source : nat)                 (* AudioBufferSourceNode.stop() *)
  | sourceStart (source : nat) (when : Z)     (* AudioBufferSourceNode.start(when) *)
  | processorDisconnect (node : nat)
  | trackStop (track : nat)                   (* MediaStreamTrack.stop() *)
  | contextClose (ctx : AudioContext)
  | sessionClose (session : nat)
  | getUserMedia (deviceId : option string)   (* video: { deviceId: { exact } }, if sent *)
  | decode (data : string)
  | setSrcObject (element stream : nat)
  | consoleError (what : string)
  (* onTranscriptionUpdate(array): the array holds object identities;
     [contents] is what these objects read at the moment of the call *)
  | onTranscriptionUpdate (snapshot : list nat)
                          (contents : list (option Transcription)).

(** The calls that give a resource back. *)
Definition is_release (e : Effect) : bool :=
  match e with
  | clearInterval _ | sourceStop _ | processorDisconnect _ | trackStop _
  | contextClose _ | sessionClose _ => true
  | _ => false
  end.

(** ** Computations of the hook *)

Inductive Exn := TypeError | DecodeFailure | DeviceAcquisitionFailure.

Inductive Outcome (A : Type) :=
  | returned (a : A)
  | thrown (e : Exn).
Arguments returned {A} a.
Arguments thrown {A} e.

Definition M (A : Type) : Type := Refs → Outcome A * Refs * list Effect.

Definition ret {A} (a : A) : M A := λ s, (returned a, s, []).

Definition bind {A B} (m : M A) (k : A → M B) : M B := λ s,
  match m s with
  | (returned a, s1, t1) =>
      match k a s1 with (r, s2, t2) => (r, s2, t1 ++ t2) end
  | (thrown e, s1, t1) => (thrown e, s1, t1)
  end.

Definition throw {A} (e : Exn) : M A := λ s, (thrown e, s, []).
Definition get : M Refs := λ s, (returned s, s, []).
Definition modify (f : Refs → Refs) : M unit := λ s, (returned tt, f s, []).
Definition call (e : Effect) : M unit := λ s, (returned tt, s, [e]).
Definition when (b : bool) (m : M unit) : M unit := if b then m else ret tt.

(** [try { m } catch (e) { h e }] *)
Definition try_catch {A} (m : M A) (h : Exn → M A) : M A := λ s,
  match m s with
  | (returned a, s1, t1) => (returned a, s1, t1)
  | (thrown e, s1, t1) =>
      match h e s1 with (r, s2, t2) => (r, s2, t1 ++ t2) end
  end.

Declare Scope hook_scope.
Delimit Scope hook_scope with hook.
Notation "'do' x <- m ; k" := (bind m (λ x, k))
  (at level 10, x name, m at level 100, k at level 200,
   format "'[v' 'do'  x  <-  m ; '/' k ']'") : hook_scope.
Notation "m ;; k" := (bind m (λ _, k))
  (at level 100, k at level 200, right associativity) : hook_scope.
Open Scope hook_scope.

Definition state_of {A} (r : Outcome A * Refs * list Effect) : Refs := r.1.2.
Definition effects_of {A} (r : Outcome A * Refs * list Effect) : list Effect := r.2.
Definition outcome_of {A} (r : Outcome A * Refs * list Effect) : Outcome A := r.1.1.

Definition calls (es : list Effect) : M unit := λ s, (returned tt, s, es).

Definition with_transcript (f : TranscriptRefs → TranscriptRefs) (s : Refs) : Refs :=
  {| transcript := f (transcript s); playback := playback s;
     capture := capture s; session := session s |}.

Definition with_playback (f : PlaybackRefs → PlaybackRefs) (s : Refs) : Refs :=
  {| transcript := transcript s; playback := f (playback s);
     capture := capture s; session := session s |}.

Definition with_capture (f : CaptureRefs → CaptureRefs) (s : Refs) : Refs :=
  {| transcript := transcript s; playback := playback s;
     capture := f (capture s); session := session s |}.

Definition with_session (f : SessionRefs → SessionRefs) (s : Refs) : Refs :=
  {| transcript := transcript s; playback := playback s;
     capture := capture s; session := f (session s) |}.

(** JS truthiness of the values the hook tests. *)
Definition truthy_string (s : string) : bool := negb (String.eqb s "").
Definition truthy_number (n : nat) : bool := negb (Nat.eqb n 0).

(** ['' + text]: an absent [text] property concatenates as "undefined". *)
Definition toText (t : option string) : string := default "undefined" t.

(** ** Transcript aggregation ([onmessage], lines 185-206)

    The source writes the same block twice, once per sender, over
    [currentInputTranscriptionRef] and [currentOutputTranscriptionRef];
    [current] selects the ref. *)

Definition current (who : Sender) (t : TranscriptRefs) : option nat :=
  match who with
  | user => currentInputTranscriptionRef t
  | ai => currentOutputTranscriptionRef t
  end.

Definition set_current (who : Sender) (v : option nat) (t : TranscriptRefs)
  : TranscriptRefs :=
  {| transcriptionsRef := transcriptionsRef t;
     currentInputTranscriptionRef :=
       match who with user => v | ai => currentInputTranscriptionRef t end;
     currentOutputTranscriptionRef :=
       match who with user => currentOutputTranscriptionRef t | ai => v end;
     objects := objects t;
     created := created t |}.

Definition set_objects (h : gmap nat Transcription) (t : TranscriptRefs)
  : TranscriptRefs :=
  {| transcriptionsRef := transcriptionsRef t;
     currentInputTranscriptionRef := currentInputTranscriptionRef t;
     currentOutputTranscriptionRef := currentOutputTranscriptionRef t;
     objects := h;
     created := created t |}.

(** [current = { id: generateId(), sender, text: '', isFinal: false };
     transcriptionsRef.current = [...transcriptionsRef.current, current]]
    where [newId] is what [generateId()] returned. *)
Definition openEntry (who : Sender) (newId : string) (t : TranscriptRefs)
  : TranscriptRefs :=
  let o := created t in
  set_current who (Some o)
    {| transcriptionsRef := transcriptionsRef t ++ [o];
       currentInputTranscriptionRef := currentInputTranscriptionRef t;
       currentOutputTranscriptionRef := currentOutputTranscriptionRef t;
       objects :=
         <[o := {| id := newId; sender := who; text := ""; isFinal := false |}]>
           (objects t);
       created := S o |}.

Definition append_text (delta : string) (e : Transcription) : Transcription :=
  {| id := id e; sender := sender e; text := text e +:+ delta;
     isFinal := isFinal e |}.

Definition make_final (e : Transcription) : Transcription :=
  {| id := id e; sender := sender e; text := text e; isFinal := true |}.

(** Lines 186-191 (user) and 193-198 (ai). *)
Definition applyDelta (who : Sender) (newId : string) (delta : string)
    (t : TranscriptRefs) : TranscriptRefs :=
  let t1 := match current who t with
            | None => openEntry who newId t
            | Some _ => t
            end in
  match current who t1 with
  | Some o => set_objects (alter (append_text delta) o (objects t1)) t1
  | None => t1
  end.

Definition finalize (slot : option nat) (h : gmap nat Transcription)
  : gmap nat Transcription :=
  match slot with
  | Some o => alter make_final o h
  | None => h
  end.

(** Lines 202-205. *)
Definition completeTurn (t : TranscriptRefs) : TranscriptRefs :=
  {| transcriptionsRef := transcriptionsRef t;
     currentInputTranscriptionRef := None;
     currentOutputTranscriptionRef := None;
     objects :=
       finalize (currentOutputTranscriptionRef t)
         (finalize (currentInputTranscriptionRef t) (objects t));
     created := created t |}.

(** Lines 126-129 of [startSession]. *)
Definition resetTranscript (t : TranscriptRefs) : TranscriptRefs :=
  {| transcriptionsRef := [];
     currentInputTranscriptionRef := None;
     currentOutputTranscriptionRef := None;
     objects := objects t;
     created := created t |}.

(** What an array of Transcription objects reads as, given the store. *)
Definition deref (h : gmap nat Transcription) (arr : list nat)
  : list (option Transcription) :=
  (λ o, h !! o) <$> arr.

(** The log as the aggregator sees it. *)
Definition log (t : TranscriptRefs) : list (option Transcription) :=
  deref (objects t) (transcriptionsRef t).

(** ** Playback scheduling ([onmessage], lines 209-233) *)

Record MessageEnv := {
  currentTime : Z;                   (* outputAudioContext.currentTime *)
  generatedId : string;              (* generateId(), if called *)
  decodeAudioData : option Z;        (* duration of the decoded buffer; None: throws *)
}.

Definition set_nextStartTimeRef (v : Z) (p : PlaybackRefs) : PlaybackRefs :=
  {| outputAudioContextRef := outputAudioContextRef p;
     outputGainNodeRef := outputGainNodeRef p;
     nextStartTimeRef := v;
     audioSourcesRef := audioSourcesRef p;
     sourcesCreated := sourcesCreated p |}.

Definition set_audioSourcesRef (v : list nat) (p : PlaybackRefs) : PlaybackRefs :=
  {| outputAudioContextRef := outputAudioContextRef p;
     outputGainNodeRef := outputGainNodeRef p;
     nextStartTimeRef := nextStartTimeRef p;
     audioSourcesRef := v;
     sourcesCreated := sourcesCreated p |}.

(** [Set.add] *)
Definition set_add (x : nat) (l : list nat) : list nat :=
  if decide (x ∈ l) then l else l ++ [x].

(** [Set.delete] *)
Definition set_delete (x : nat) (l : list nat) : list nat :=
  filter (λ y, y ≠ x) l.

(** [createBufferSource] ... [currentSources.add(source)] with the buffer of
    duration [duration] (lines 217-226). *)
Definition schedule (duration : Z) (p : PlaybackRefs) : PlaybackRefs :=
  {| outputAudioContextRef := outputAudioContextRef p;
     outputGainNodeRef := outputGainNodeRef p;
     nextStartTimeRef := nextStartTimeRef p + duration;
     audioSourcesRef := set_add (sourcesCreated p) (audioSourcesRef p);
     sourcesCreated := S (sourcesCreated p) |}.

(** Lines 211-226: the body of [if (audioData && ...)]. *)
Definition enqueue (env : MessageEnv) (data : string) : M unit :=
  modify (with_playback (λ p,
    set_nextStartTimeRef (Z.max (nextStartTimeRef p) (currentTime env)) p)) ;;
  call (decode data) ;;
  match decodeAudioData env with
  | None => throw DecodeFailure
  | Some duration =>
      do s <- get ;
      call (sourceStart (sourcesCreated (playback s))
                        (nextStartTimeRef (playback s))) ;;
      modify (with_playback (schedule duration))
  end.

(** Lines 230-232. *)
Definition interrupt : M unit :=
  do s <- get ;
  calls (sourceStop <$> audioSourcesRef (playback s)) ;;
  modify (with_playback (λ p, set_nextStartTimeRef 0 (set_audioSourcesRef [] p))).

(** The ['ended'] listener of a source (line 222). *)
Definition onended (source : nat) : M unit :=
  modify (with_playback (λ p,
    set_audioSourcesRef (set_delete source (audioSourcesRef p)) p)).

(** Line 209: [message.serverContent?.modelTurn?.parts[0]?.inlineData?.data];
    [parts[0]] on an absent [parts] is a TypeError. *)
Definition audioDataOf (message : LiveServerMessage) : M (option string) :=
  match modelTurn message with
  | None => ret None
  | Some c =>
      match parts c with
      | None => throw TypeError
      | Some [] => ret None
      | Some (p :: _) => ret (inlineData p)
      end
  end.

(** Lines 185-199. *)
Definition routeTranscription (env : MessageEnv) (message : LiveServerMessage)
    (t : TranscriptRefs) : TranscriptRefs :=
  match inputTranscription message with
  | Some txt => applyDelta user (generatedId env) (toText txt) t
  | None =>
      match outputTranscription message with
      | Some txt => applyDelta ai (generatedId env) (toText txt) t
      | None => t
      end
  end.

(** Lines 209-233: the audio chunk, then the interruption flag. *)
Definition routeAudio (env : MessageEnv) (message : LiveServerMessage) : M unit :=
  do audioData <- audioDataOf message ;
  do s <- get ;
  match audioData, outputAudioContextRef (playback s),
        outputGainNodeRef (playback s) with
  | Some data, Some _, Some _ =>
      if truthy_string data then enqueue env data else ret tt
  | _, _, _ => ret tt
  end ;;
  when (interrupted message) interrupt.

(** Lines 184-234. *)
Definition onmessage (env : MessageEnv) (message : LiveServerMessage) : M unit :=
  modify (with_transcript (routeTranscription env message)) ;;
  when (turnComplete message) (modify (with_transcript completeTurn)) ;;
  (do s <- get ;
   call (onTranscriptionUpdate (transcriptionsRef (transcript s))
                               (log (transcript s)))) ;;
  routeAudio env message.

(** ** The playback clock in the code's own numbers

    [nextStartTimeRef.current], [audioContext.currentTime] and
    [audioBuffer.duration] are JavaScript numbers: IEEE 754 doubles that
    count seconds.  Frame counts add exactly; doubles do not.  What is said
    about sums of durations is therefore said over this second reading of
    lines 211-226, which keeps the code's numbers and leaves out
    everything but the playback refs. *)

(** [Math.max(a, b)]: the larger number, [+0] rather than [-0], and [NaN]
    if either argument is [NaN]. *)
Definition Math_max (a b : float) : float :=
  if (b <? a)%float then a
  else if (a <? b)%float then b
  else if (a =? b)%float then
    match classify a with NZero => b | _ => a end
  else nan.

Record Timeline := {
  nextStartTime : float;           (* nextStartTimeRef.current *)
  liveSources : list nat;          (* audioSourcesRef.current *)
  createdSources : nat;            (* identity of the next AudioBufferSourceNode *)
}.

(** A chunk as lines 211-226 meet it. *)
Record Chunk := {
  arrival : float;                 (* audioContext.currentTime at line 212 *)
  payload : string;                (* audioData *)
  decoded : option float;          (* audioBuffer.duration; None: the decode throws *)
}.

Inductive AudioCall :=
  | decodeCall (data : string)
  | startCall (source : nat) (when : float).     (* source.start(when) *)

(** Lines 211-226. *)
Definition enqueueChunk (c : Chunk) (p : Timeline)
  : Outcome unit * Timeline * list AudioCall :=
  let startTime := Math_max (nextStartTime p) (arrival c) in       (* line 212 *)
  match decoded c with
  | None =>
      (thrown DecodeFailure,
       {| nextStartTime := startTime; liveSources := liveSources p;
          createdSources := createdSources p |},
       [decodeCall (payload c)])
  | Some duration =>
      (returned tt,
       {| nextStartTime := (startTime + duration)%float;           (* line 225 *)
          liveSources := set_add (createdSources p) (liveSources p);
          createdSources := S (createdSources p) |},
       [decodeCall (payload c); startCall (createdSources p) startTime])
  end.

(** One chunk per message; a decode that throws ends its own message only. *)
Fixpoint enqueueChunks (cs : list Chunk) (p : Timeline)
  : Timeline * list AudioCall :=
  match cs with
  | [] => (p, [])
  | c :: rest =>
      let r := enqueueChunk c p in
      let r' := enqueueChunks rest r.1.2 in
      (r'.1, r.2 ++ r'.2)
  end.

(** ** Teardown ([cleanup], lines 43-80) *)

Definition set_frameIntervalRef (v : option nat) (c : CaptureRefs) : CaptureRefs :=
  {| mediaStreamRef := mediaStreamRef c;
     inputAudioContextRef := inputAudioContextRef c;
     scriptProcessorRef := scriptProcessorRef c;
     videoElementRef := videoElementRef c;
     canvasElementRef := canvasElementRef c;
     frameIntervalRef := v |}.

Definition set_scriptProcessorRef (v : option nat) (c : CaptureRefs) : CaptureRefs :=
  {| mediaStreamRef := mediaStreamRef c;
     inputAudioContextRef := inputAudioContextRef c;
     scriptProcessorRef := v;
     videoElementRef := videoElementRef c;
     canvasElementRef := canvasElementRef c;
     frameIntervalRef := frameIntervalRef c |}.

Definition set_mediaStreamRef (v : option MediaStream) (c : CaptureRefs) : CaptureRefs :=
  {| mediaStreamRef := v;
     inputAudioContextRef := inputAudioContextRef c;
     scriptProcessorRef := scriptProcessorRef c;
     videoElementRef := videoElementRef c;
     canvasElementRef := canvasElementRef c;
     frameIntervalRef := frameIntervalRef c |}.

Definition set_localStream (v : option nat) (x : SessionRefs) : SessionRefs :=
  {| sessionPromiseRef := sessionPromiseRef x;
     isConnecting := isConnecting x;
     isConnected := isConnected x;
     localStream := v |}.

(** [if (ctx && ctx.state !== 'closed') ctx.close()] *)
Definition closeContext (ref : option AudioContext) : M unit :=
  match ref with
  | Some ctx =>
      match state ctx with
      | closed => ret tt
      | _ => call (contextClose ctx)
      end
  | None => ret tt
  end.

(** Lines 70-79: the refs and flags cleared at the end of [cleanup]. *)
Definition clearRefs (s : Refs) : Refs :=
  {| transcript := transcript s;
     playback :=
       {| outputAudioContextRef := None;
          outputGainNodeRef := outputGainNodeRef (playback s);
          nextStartTimeRef := 0;
          audioSourcesRef := audioSourcesRef (playback s);
          sourcesCreated := sourcesCreated (playback s) |};
     capture :=
       {| mediaStreamRef := mediaStreamRef (capture s);
          inputAudioContextRef := None;
          scriptProcessorRef := scriptProcessorRef (capture s);
          videoElementRef := None;
          canvasElementRef := None;
          frameIntervalRef := frameIntervalRef (capture s) |};
     session :=
       {| sessionPromiseRef := None;
          isConnecting := false;
          isConnected := false;
          localStream := localStream (session s) |} |}.

Definition cleanup : M unit :=
  (do s <- get ;
   match frameIntervalRef (capture s) with
   | Some timer =>
       when (truthy_number timer)
         (call (clearInterval timer) ;;
          modify (with_capture (set_frameIntervalRef None)))
   | None => ret tt
   end) ;;
  (do s <- get ;
   calls (sourceStop <$> audioSourcesRef (playback s)) ;;
   modify (with_playback (set_audioSourcesRef []))) ;;
  (do s <- get ;
   match scriptProcessorRef (capture s) with
   | Some node =>
       call (processorDisconnect node) ;;
       modify (with_capture (set_scriptProcessorRef None))
   | None => ret tt
   end) ;;
  (do s <- get ;
   match mediaStreamRef (capture s) with
   | Some stream =>
       calls ((λ t, trackStop (trackId t)) <$> tracks stream) ;;
       modify (with_capture (set_mediaStreamRef None))
   | None => ret tt
   end) ;;
  modify (with_session (set_localStream None)) ;;
  (do s <- get ; closeContext (inputAudioContextRef (capture s))) ;;
  (do s <- get ; closeContext (outputAudioContextRef (playback s))) ;;
  modify clearRefs.

(** Lines 83-90 of [stopSession], for the promise read at line 83: the
    [await], [session.close()] and the [catch]. *)
Definition closeSession (promise : option SessionPromise) : M unit :=
  match promise with
  | Some p =>
      try_catch
        (match p with
         | resolves sn => call (sessionClose sn)
         | rejects => throw TypeError
         end)
        (λ _, call (consoleError "Error closing session:"))
  | None => ret tt
  end.

(** [stopSession], lines 82-92. *)
Definition stopSession : M unit :=
  (do s <- get ; closeSession (sessionPromiseRef (session s))) ;;
  cleanup.

(** Lines 235-239. *)
Definition onclose : M unit := cleanup.
Definition onerror : M unit := call (consoleError "Session error:") ;; cleanup.

(** The three ways teardown is triggered. *)
Inductive Trigger := stop | transportError | transportClose.

Definition fire (t : Trigger) : M unit :=
  match t with
  | stop => stopSession
  | transportError => onerror
  | transportClose => onclose
  end.

Fixpoint fire_all (ts : list Trigger) : M unit :=
  match ts with
  | [] => ret tt
  | t :: rest => fire t ;; fire_all rest
  end.

(** ** Camera switch ([switchCamera], lines 248-270) *)

Definition getVideoTracks (stream : MediaStream) : list MediaStreamTrack :=
  filter (λ t, kind t = video) (tracks stream).

Definition stopped (t : MediaStreamTrack) : MediaStreamTrack :=
  {| trackId := trackId t; kind := kind t; readyState := ended |}.

(** The stream after [track.stop()] on the track of identity [tid]. *)
Definition stopTrack (tid : nat) (stream : MediaStream) : MediaStream :=
  {| streamId := streamId stream;
     tracks := (λ t, if decide (trackId t = tid) then stopped t else t)
                 <$> tracks stream |}.

Definition removeTrack (tid : nat) (stream : MediaStream) : MediaStream :=
  {| streamId := streamId stream;
     tracks := filter (λ t, trackId t ≠ tid) (tracks stream) |}.

Definition addTrack (t : MediaStreamTrack) (stream : MediaStream) : MediaStream :=
  {| streamId := streamId stream;
     tracks := if decide (trackId t ∈ trackId <$> tracks stream)
               then tracks stream else tracks stream ++ [t] |}.

(** [acquired] is what [navigator.mediaDevices.getUserMedia] resolves to,
    [None] when it rejects. *)
Definition switchCamera (newDeviceId : string) (acquired : option MediaStream)
  : M unit :=
  do s <- get ;
  match mediaStreamRef (capture s) with
  | None => ret tt
  | Some stream =>
      match getVideoTracks stream with
      | [] => throw TypeError
      | oldTrack :: _ =>
          call (trackStop (trackId oldTrack)) ;;
          modify (with_capture
            (set_mediaStreamRef (Some (stopTrack (trackId oldTrack) stream)))) ;;
          call (getUserMedia (Some newDeviceId)) ;;
          match acquired with
          | None => throw DeviceAcquisitionFailure
          | Some newStream =>
              let removed :=
                removeTrack (trackId oldTrack)
                  (stopTrack (trackId oldTrack) stream) in
              modify (with_capture (set_mediaStreamRef (Some removed))) ;;
              match getVideoTracks newStream with
              | [] => throw TypeError          (* addTrack(undefined) *)
              | newTrack :: _ =>
                  let swapped := addTrack newTrack removed in
                  modify (with_capture (set_mediaStreamRef (Some swapped))) ;;
                  match videoElementRef (capture s) with
                  | Some el => call (setSrcObject el (streamId swapped))
                  | None => ret tt
                  end ;;
                  modify (with_session (set_localStream (Some (streamId swapped))))
              end
          end
      end
  end.

(** ** Session start ([startSession], lines 123-246, and [onopen]) *)

Record StartEnv := {
  acquiredStream : option MediaStream;   (* getUserMedia; None: rejects *)
  connected : SessionPromise;            (* ai.live.connect(...) *)
  videoElement : nat;
  canvasElement : nat;
  gainNode : nat;
}.

(** Line 135: [deviceId ? { exact: deviceId } : undefined], the device
    constraint that is sent, if any. *)
Definition exactDevice (deviceId : option string) : option string :=
  match deviceId with
  | Some d => if truthy_string d then Some d else None
  | None => None
  end.

(** [startSession] as the render created it in which [isConnected] and
    [isConnecting] had the given values: both are React state, read by the
    closure and listed in the dependencies of its [useCallback] (lines
    20-21, 124 and 246). *)
Definition startSessionOf (isConnectedAtRender isConnectingAtRender : bool)
    (deviceId : option string) (env : StartEnv) : M unit :=
  if isConnectedAtRender || isConnectingAtRender then ret tt else
  modify (with_session (λ x,
    {| sessionPromiseRef := sessionPromiseRef x; isConnecting := true;
       isConnected := isConnected x; localStream := localStream x |})) ;;
  modify (with_transcript (λ t,
    {| transcriptionsRef := [];
       currentInputTranscriptionRef := currentInputTranscriptionRef t;
       currentOutputTranscriptionRef := currentOutputTranscriptionRef t;
       objects := objects t; created := created t |})) ;;
  call (onTranscriptionUpdate [] []) ;;
  modify (with_transcript resetTranscript) ;;
  try_catch
    (call (getUserMedia (exactDevice deviceId)) ;;
     match acquiredStream env with
     | None => throw DeviceAcquisitionFailure
     | Some stream =>
         call (setSrcObject (videoElement env) (streamId stream)) ;;
         modify (λ s,
           {| transcript := transcript s;
              playback :=
                {| outputAudioContextRef :=
                     Some {| sampleRate := 24000; state := running |};
                   outputGainNodeRef := Some (gainNode env);
                   nextStartTimeRef := nextStartTimeRef (playback s);
                   audioSourcesRef := audioSourcesRef (playback s);
                   sourcesCreated := sourcesCreated (playback s) |};
              capture :=
                {| mediaStreamRef := Some stream;
                   inputAudioContextRef :=
                     Some {| sampleRate := 16000; state := running |};
                   scriptProcessorRef := scriptProcessorRef (capture s);
                   videoElementRef := Some (videoElement env);
                   canvasElementRef := Some (canvasElement env);
                   frameIntervalRef := frameIntervalRef (capture s) |};
              session :=
                {| sessionPromiseRef := Some (connected env);
                   isConnecting := isConnecting (session s);
                   isConnected := isConnected (session s);
                   localStream := Some (streamId stream) |} |})
     end)
    (λ _, call (consoleError "Failed to start session:") ;; cleanup).

(** [startSession] of the latest render: the flags it has captured are the
    current ones. *)
Definition startSession (deviceId : option string) (env : StartEnv) : M unit :=
  do s <- get ;
  startSessionOf (isConnected (session s)) (isConnecting (session s))
    deviceId env.

Record OpenEnv := {
  context2d : bool;        (* canvas.getContext('2d') is not null *)
  intervalId : nat;        (* window.setInterval(...) *)
  processorNode : nat;     (* createScriptProcessor(4096, 1, 1) *)
}.

(** Lines 94-121, up to the registration of the timer. *)
Definition startVideoFrameStreaming (env : OpenEnv) : M unit :=
  do s <- get ;
  match videoElementRef (capture s), canvasElementRef (capture s) with
  | Some _, Some _ =>
      when (context2d env)
        (modify (with_capture (set_frameIntervalRef (Some (intervalId env)))))
  | _, _ => ret tt
  end.

(** Lines 160-183. *)
Definition onopen (env : OpenEnv) : M unit :=
  modify (with_session (λ x,
    {| sessionPromiseRef := sessionPromiseRef x; isConnecting := false;
       isConnected := true; localStream := localStream x |})) ;;
  do s <- get ;
  match inputAudioContextRef (capture s), mediaStreamRef (capture s) with
  | Some _, Some _ =>
      startVideoFrameStreaming env ;;
      modify (with_capture (set_scriptProcessorRef (Some (processorNode env))))
  | _, _ => ret tt
  end.

(** ** The hook as an event-driven machine *)

Inductive Event :=
  | start_session (deviceId : option string) (env : StartEnv)
  | transport_open (env : OpenEnv)
  | transport_message (env : MessageEnv) (message : LiveServerMessage)
  | source_ended (source : nat)
  | teardown (t : Trigger)
  | switch_camera (newDeviceId : string) (acquired : option MediaStream).

Definition handle (e : Event) : M unit :=
  match e with
  | start_session deviceId env => startSession deviceId env
  | transport_open env => onopen env
  | transport_message env message => onmessage env message
  | source_ended source => onended source
  | teardown t => fire t
  | switch_camera newDeviceId acquired => switchCamera newDeviceId acquired
  end.

(** An exception thrown by one callback ends that callback only. *)
Fixpoint run (es : list Event) (s : Refs) : Refs * list Effect :=
  match es with
  | [] => (s, [])
  | e :: rest =>
      let r := handle e s in
      let r' := run rest (state_of r) in
      (r'.1, effects_of r ++ r'.2)
  end.

Definition reachable (s : Refs) : Prop := ∃ es, (run es initial).1 = s.

(** A message among the events is handled at context time [now] or later. *)
Definition not_before (now : Z) (e : Event) : Prop :=
  match e with
  | transport_message env _ => now ≤ currentTime env
  | _ => True
  end.

(** Until the session is torn down, the messages among the events are
    handled at context time [now] or later.  (The session after a
    teardown has a new context, whose clock starts again.) *)
Fixpoint clock_not_back (now : Z) (later : list Event) : Prop :=
  match later with
  | [] => True
  | teardown _ :: _ => True
  | e :: rest => not_before now e ∧ clock_not_back now rest
  end.

(** ** Properties of the transcript log *)

(** An entry of the log that is still open for [who]. *)
Definition open_for (who : Sender) (t : TranscriptRefs) (o : nat) : Prop :=
  o ∈ transcriptionsRef t ∧
  ∃ e, objects t !! o = Some e ∧ sender e = who ∧ isFinal e = false.

Record TranscriptInv (t : TranscriptRefs) : Prop := {
  inv_bound : ∀ o, o ∈ transcriptionsRef t → (o < created t)%nat;
  inv_alloc : ∀ o, o ∈ transcriptionsRef t → is_Some (objects t !! o);
  inv_current : ∀ who o, current who t = Some o → open_for who t o;
  inv_open : ∀ who o, open_for who t o → current who t = Some o;
}.

(** The text accumulated so far in the open entry of [who]. *)
Definition open_text (who : Sender) (t : TranscriptRefs) : string :=
  match current who t with
  | Some o => from_option text "" (objects t !! o)
  | None => ""
  end.

(** A run of deltas without a turn boundary: sender, generated id, text. *)
Definition applyDeltas (ds : list (Sender * string * string)) (t : TranscriptRefs)
  : TranscriptRefs :=
  foldl (λ acc d, applyDelta d.1.1 d.1.2 d.2 acc) t ds.

Fixpoint texts_of (who : Sender) (ds : list (Sender * string * string)) : string :=
  match ds with
  | [] => ""
  | (w, _, txt) :: rest =>
      if decide (w = who) then txt +:+ texts_of who rest else texts_of who rest
  end.

(** ** Vocabulary of the statements *)

(** How an object may differ between two moments of a session. *)
Definition extends (e e' : Transcription) : Prop :=
  id e' = id e ∧ sender e' = sender e ∧
  (∃ suffix, text e' = text e +:+ suffix) ∧
  (isFinal e = true → e' = e).

(** What may happen to the objects that exist and to the object counter. *)
Definition evolves (t t' : TranscriptRefs) : Prop :=
  (created t ≤ created t')%nat ∧
  ∀ o e, (o < created t)%nat → objects t !! o = Some e →
    ∃ e', objects t' !! o = Some e' ∧ extends e e'.

Definition preserves {X A} (π : Refs → X) (m : M A) : Prop :=
  ∀ s, π (state_of (m s)) = π s.

(** The transcript half of [onmessage], lines 185-206. *)
Definition turn (env : MessageEnv) (message : LiveServerMessage)
    (t : TranscriptRefs) : TranscriptRefs :=
  let t1 := routeTranscription env message t in
  if turnComplete message then completeTurn t1 else t1.

(** The message carries an audio chunk: [parts[0].inlineData.data] is a
    non-empty string. *)
Definition carries_audio (m : LiveServerMessage) (data : string) : Prop :=
  ∃ p ps, modelTurn m = Some {| parts := Some (p :: ps) |} ∧
          inlineData p = Some data ∧ truthy_string data = true.

(** The output context and gain node exist (a session is running). *)
Definition output_ready (s : Refs) : Prop :=
  is_Some (outputAudioContextRef (playback s)) ∧
  is_Some (outputGainNodeRef (playback s)).

(** The state after lines 212-226 for a buffer of duration [d]. *)
Definition enqueued (now d : Z) (s : Refs) : Refs :=
  with_playback
    (λ p, schedule d (set_nextStartTimeRef (Z.max (nextStartTimeRef p) now) p)) s.

(** The state after line 212 alone: the clock raised to the context time
    [now]. *)
Definition clamped (now : Z) (s : Refs) : Refs :=
  with_playback
    (λ p, set_nextStartTimeRef (Z.max (nextStartTimeRef p) now) p) s.

(** [s'] is [s], except that line 212 may have raised its clock to [now]. *)
Definition same_but_clamped (now : Z) (s s' : Refs) : Prop :=
  s' = s ∨ s' = clamped now s.

(** The state after lines 230-232. *)
Definition flushed (s : Refs) : Refs :=
  with_playback (λ p, set_nextStartTimeRef 0 (set_audioSourcesRef [] p)) s.

(** A message that enqueues one chunk of duration [d] and does not
    interrupt. *)
Definition enqueues (d : Z) (a : MessageEnv * LiveServerMessage) : Prop :=
  (∃ data, carries_audio a.2 data) ∧
  decodeAudioData a.1 = Some d ∧ interrupted a.2 = false.

Definition messages (ms : list (MessageEnv * LiveServerMessage)) : list Event :=
  (λ a, transport_message a.1 a.2) <$> ms.

(** The times passed to [source.start], in call order. *)
Definition starts (effs : list Effect) : list Z :=
  omap (λ e, match e with sourceStart _ t => Some t | _ => None end) effs.

(** The times passed to [source.start] on the timeline in seconds. *)
Definition startTimes (calls : list AudioCall) : list float :=
  omap (λ e, match e with startCall _ t => Some t | _ => None end) calls.

Definition decodes (c : Chunk) (d : float) : Prop := decoded c = Some d.

(** PlaybackClock >= now: the clock is ahead of the context time, or
    stands exactly at it. *)
Definition not_behind (clock now : float) : Prop :=
  (now <? clock)%float = true ∨ (now = clock ∧ (clock =? clock)%float = true).

(** Each chunk of [cs] is enqueued while the clock is not behind. *)
Fixpoint on_time (cs : list Chunk) (p : Timeline) : Prop :=
  match cs with
  | [] => True
  | c :: rest =>
      not_behind (nextStartTime p) (arrival c) ∧
      on_time rest (enqueueChunk c p).1.2
  end.

(** [start + d1 + ... + dn] as the code adds: one duration after the
    other, every sum rounded to a double. *)
Definition running_sum (start : float) (ds : list float) : float :=
  foldl PrimFloat.add start ds.

(** The real number a finite double stands for (0 for the others). *)
Definition exact (x : float) : Q :=
  match Prim2SF x with
  | S754_finite s m e => (inject_Z (if s then Z.neg m else Z.pos m) * 2 ^ e)%Q
  | _ => 0%Q
  end.

(** [start + d1 + ... + dn] in exact arithmetic. *)
Definition exact_sum (start : float) (ds : list float) : Q :=
  foldl (λ acc d, (acc + exact d)%Q) (exact start) ds.

(** None of the additions of [running_sum start ds] rounds. *)
Fixpoint no_rounding (start : float) (ds : list float) : Prop :=
  match ds with
  | [] => True
  | d :: rest =>
      (exact (start + d)%float == exact start + exact d)%Q ∧
      no_rounding (start + d)%float rest
  end.

(** ** Example sessions *)

Definition camera : MediaStream :=
  {| streamId := 1;
     tracks := [ {| trackId := 10; kind := audio; readyState := live |};
                 {| trackId := 11; kind := video; readyState := live |} ] |}.

(** A running session, as [startSession] and [onopen] leave it. *)
Definition live_session : Refs :=
  (run [ start_session None
           {| acquiredStream := Some camera; connected := resolves 7;
              videoElement := 2; canvasElement := 3; gainNode := 4 |};
         transport_open
           {| context2d := true; intervalId := 5; processorNode := 6 |} ]
       initial).1.

Definition chunk (data : string) (stop_playing : bool) : LiveServerMessage :=
  {| inputTranscription := None; outputTranscription := None;
     turnComplete := false; interrupted := stop_playing;
     modelTurn := Some {| parts := Some [ {| inlineData := Some data |} ] |} |}.

Definition at_time (now : Z) (decoded : option Z) : MessageEnv :=
  {| currentTime := now; generatedId := "k3x9q2a"; decodeAudioData := decoded |}.

(** The timeline of a new session. *)
Definition idle_timeline : Timeline :=
  {| nextStartTime := 0; liveSources := []; createdSources := 0 |}.

(** The duration of a buffer of 960 frames at 24 kHz: [length / sampleRate]. *)
Definition forty_ms : float := (960 / 24000)%float.

Definition chunk_at (now : float) (data : string) : Chunk :=
  {| arrival := now; payload := data; decoded := Some forty_ms |}.

(** A running session with two chunks queued; the clock stands at 10000. *)
Definition queued_session : Refs :=
  (run (messages [ (at_time 100 (Some 4900), chunk "AAAA" false);
                   (at_time 200 (Some 5000), chunk "BBBB" false) ])
       live_session).1.

(** The scenario of the spec: [outputTranscription "Hi"], [turnComplete]
    and an audio chunk in one message. *)
Definition hi_with_audio : LiveServerMessage :=
  {| inputTranscription := None; outputTranscription := Some (Some "Hi");
     turnComplete := true; interrupted := false;
     modelTurn := Some {| parts := Some [ {| inlineData := Some "AAAA" |} ] |} |}.

(** The same message without its audio part. *)
Definition without_audio (m : LiveServerMessage) : LiveServerMessage :=
  {| inputTranscription := inputTranscription m;
     outputTranscription := outputTranscription m;
     turnComplete := turnComplete m;
     interrupted := interrupted m;
     modelTurn := None |}.

Definition is_notification (e : Effect) : bool :=
  match e with onTranscriptionUpdate _ _ => true | _ => false end.

Definition emits {A} (P : Effect → Prop) (m : M A) : Prop :=
  ∀ s, Forall P (effects_of (m s)).

Definition user_says (txt : string) : LiveServerMessage :=
  {| inputTranscription := Some (Some txt); outputTranscription := None;
     turnComplete := false; interrupted := false; modelTurn := None |}.

Definition turn_complete : LiveServerMessage :=
  {| inputTranscription := None; outputTranscription := None;
     turnComplete := true; interrupted := false; modelTurn := None |}.

(** The refs as one pass of [cleanup] leaves them. *)
Definition torn_down (s : Refs) : Refs :=
  {| transcript := transcript s;
     playback :=
       {| outputAudioContextRef := None;
          outputGainNodeRef := outputGainNodeRef (playback s);
          nextStartTimeRef := 0;
          audioSourcesRef := [];
          sourcesCreated := sourcesCreated (playback s) |};
     capture :=
       {| mediaStreamRef := None;
          inputAudioContextRef := None;
          scriptProcessorRef := None;
          videoElementRef := None;
          canvasElementRef := None;
          frameIntervalRef :=
            match frameIntervalRef (capture s) with
            | Some timer => if truthy_number timer then None else Some timer
            | None => None
            end |};
     session :=
       {| sessionPromiseRef := None;
          isConnecting := false;
          isConnected := false;
          localStream := None |} |}.

Definition open_context (ref : option AudioContext) : list AudioContext :=
  match ref with
  | Some ctx => match state ctx with closed => [] | _ => [ctx] end
  | None => []
  end.

(** The calls one pass of [cleanup] makes, in order. *)
Definition releases (s : Refs) : list Effect :=
  match frameIntervalRef (capture s) with
  | Some timer => if truthy_number timer then [clearInterval timer] else []
  | None => []
  end
  ++ (sourceStop <$> audioSourcesRef (playback s))
  ++ match scriptProcessorRef (capture s) with
     | Some node => [processorDisconnect node]
     | None => []
     end
  ++ match mediaStreamRef (capture s) with
     | Some stream => (λ t, trackStop (trackId t)) <$> tracks stream
     | None => []
     end
  ++ (contextClose <$> open_context (inputAudioContextRef (capture s)))
  ++ (contextClose <$> open_context (outputAudioContextRef (playback s))).

(** ** The component ([App.tsx]) *)

Record App := {
  videoDevices : list string;        (* the deviceId of each video input *)
  currentDeviceIndex : nat;
}.

(** [handleToggleSession], lines 44-51; [env] is what the platform answers
    if a session is started. *)
Definition handleToggleSession (env : StartEnv) (app : App) : M unit :=
  do s <- get ;
  if isConnected (session s) then stopSession
  else if isConnecting (session s) then ret tt
  else startSession (videoDevices app !! currentDeviceIndex app) env.

(** [handleSwitchCamera], lines 53-62: the component's next state and what
    it asks of the hook. *)
Definition handleSwitchCamera (acquired : option MediaStream) (app : App)
  : App * M unit :=
  if (1 <? length (videoDevices app))%nat then
    let nextIndex :=
      ((currentDeviceIndex app + 1) mod length (videoDevices app))%nat in
    ({| videoDevices := videoDevices app; currentDeviceIndex := nextIndex |},
     match videoDevices app !! nextIndex with
     | None => throw TypeError          (* videoDevices[nextIndex].deviceId *)
     | Some nextDeviceId =>
         do s <- get ;
         if isConnected (session s) then switchCamera nextDeviceId acquired
         else ret tt
     end)
  else (app, ret tt).

(** The component after the switch button has been pressed [k] times. *)
Definition presses (k : nat) (app : App) : App :=
  Nat.iter k (λ a, (handleSwitchCamera None a).1) app.

(** ** More vocabulary *)

(** The live set is a set of sources that were created. *)
Definition LiveSetInv (s : Refs) : Prop :=
  NoDup (audioSourcesRef (playback s)) ∧
  ∀ h, h ∈ audioSourcesRef (playback s) → (h < sourcesCreated (playback s))%nat.

Definition maintains {A} (I : Refs → Prop) (m : M A) : Prop :=
  ∀ s, I s → I (state_of (m s)).

(** Calls on the playback graph. *)
Definition is_playback_call (e : Effect) : bool :=
  match e with
  | decode _ | sourceStart _ _ | sourceStop _ => true
  | _ => false
  end.

(** The same message without its [outputTranscription]. *)
Definition without_output (m : LiveServerMessage) : LiveServerMessage :=
  {| inputTranscription := inputTranscription m;
     outputTranscription := None;
     turnComplete := turnComplete m;
     interrupted := interrupted m;
     modelTurn := modelTurn m |}.

Definition audio_tracks (stream : MediaStream) : list MediaStreamTrack :=
  filter (λ t, kind t = audio) (tracks stream).

(** The flags [startSession] tests at line 124 are both false. *)
Definition is_idle (s : Refs) : Prop :=
  isConnected (session s) = false ∧ isConnecting (session s) = false.

(** The refs after lines 125-129 of [startSession]. *)
Definition connecting (s : Refs) : Refs :=
  with_transcript resetTranscript
    (with_session (λ x,
       {| sessionPromiseRef := sessionPromiseRef x; isConnecting := true;
          isConnected := isConnected x; localStream := localStream x |}) s).

(** The refs after lines 137-151 of [startSession], once [getUserMedia]
    has resolved to [stream]. *)
Definition acquired_refs (env : StartEnv) (stream : MediaStream) (s : Refs)
  : Refs :=
  {| transcript := transcript s;
     playback :=
       {| outputAudioContextRef :=
            Some {| sampleRate := 24000; state := running |};
          outputGainNodeRef := Some (gainNode env);
          nextStartTimeRef := nextStartTimeRef (playback s);
          audioSourcesRef := audioSourcesRef (playback s);
          sourcesCreated := sourcesCreated (playback s) |};
     capture :=
       {| mediaStreamRef := Some stream;
          inputAudioContextRef :=
            Some {| sampleRate := 16000; state := running |};
          scriptProcessorRef := scriptProcessorRef (capture s);
          videoElementRef := Some (videoElement env);
          canvasElementRef := Some (canvasElement env);
          frameIntervalRef := frameIntervalRef (capture s) |};
     session :=
       {| sessionPromiseRef := Some (connected env);
          isConnecting := isConnecting (session s);
          isConnected := isConnected (session s);
          localStream := Some (streamId stream) |} |}.

(** The session flags after lines 161-162 of [onopen]. *)
Definition opened (x : SessionRefs) : SessionRefs :=
  {| sessionPromiseRef := sessionPromiseRef x; isConnecting := false;
     isConnected := true; localStream := localStream x |}.

(** Calls that start or stop a source. *)
Definition is_source_call (e : Effect) : bool :=
  match e with
  | sourceStart _ _ | sourceStop _ => true
  | _ => false
  end.

(** * Proofs *)

Lemma append_cons ch (a b : string) : String ch a +:+ b = String ch (a +:+ b).
Proof. reflexivity. Qed.

Lemma append_assoc (a b c : string) : (a +:+ b) +:+ c = a +:+ (b +:+ c).
Proof.
  induction a as [|ch a IH]; [done|]. rewrite !append_cons. by rewrite IH.
Qed.

Lemma append_empty_r (a : string) : a +:+ "" = a.
Proof.
  induction a as [|ch a IH]; [done|]. rewrite append_cons. by rewrite IH.
Qed.

(** ** The monad *)

Lemma effects_bind {A B} (m : M A) (k : A → M B) s a :
  outcome_of (m s) = returned a →
  effects_of (bind m k s) = effects_of (m s) ++ effects_of (k a (state_of (m s))).
Proof.
  unfold bind, outcome_of, effects_of, state_of.
  destruct (m s) as [[[a'|e] s1] t1]; simpl; [|done].
  intros [= ->]. by destruct (k a s1) as [[r s2] t2].
Qed.

Lemma state_bind {A B} (m : M A) (k : A → M B) s a :
  outcome_of (m s) = returned a →
  state_of (bind m k s) = state_of (k a (state_of (m s))).
Proof.
  unfold bind, outcome_of, state_of.
  destruct (m s) as [[[a'|e] s1] t1]; simpl; [|done].
  intros [= ->]. by destruct (k a s1) as [[r s2] t2].
Qed.

Lemma outcome_bind {A B} (m : M A) (k : A → M B) s a :
  outcome_of (m s) = returned a →
  outcome_of (bind m k s) = outcome_of (k a (state_of (m s))).
Proof.
  unfold bind, outcome_of, state_of.
  destruct (m s) as [[[a'|e] s1] t1]; simpl; [|done].
  intros [= ->]. by destruct (k a s1) as [[r s2] t2].
Qed.

(** ** Transcript aggregation *)

Section transcript.
Implicit Types (t : TranscriptRefs) (who : Sender) (o : nat).

Lemma applyDelta_open who newId delta t :
  current who t = None →
  applyDelta who newId delta t =
    set_current who (Some (created t))
      {| transcriptionsRef := transcriptionsRef t ++ [created t];
         currentInputTranscriptionRef := currentInputTranscriptionRef t;
         currentOutputTranscriptionRef := currentOutputTranscriptionRef t;
         objects :=
           <[created t := {| id := newId; sender := who; text := delta;
                             isFinal := false |}]> (objects t);
         created := S (created t) |}.
Proof.
  intros Hc. unfold applyDelta. rewrite Hc.
  destruct who; simpl; unfold set_objects, set_current; simpl;
    by rewrite alter_insert_eq.
Qed.

Lemma applyDelta_append who newId delta t o :
  current who t = Some o →
  applyDelta who newId delta t =
    set_objects (alter (append_text delta) o (objects t)) t.
Proof. intros Hc. unfold applyDelta. by rewrite Hc, Hc. Qed.

Lemma current_other who who' v t :
  who ≠ who' → current who' (set_current who v t) = current who' t.
Proof. by destruct who, who'. Qed.

Lemma current_same who v t : current who (set_current who v t) = v.
Proof. by destruct who. Qed.

Lemma initial_inv : TranscriptInv (transcript initial).
Proof.
  split; simpl.
  - intros o Ho. by apply elem_of_nil in Ho.
  - intros o Ho. by apply elem_of_nil in Ho.
  - by intros [] o.
  - intros who o [Ho _]. by apply elem_of_nil in Ho.
Qed.

Lemma resetTranscript_inv t : TranscriptInv (resetTranscript t).
Proof.
  split; simpl.
  - intros o Ho. by apply elem_of_nil in Ho.
  - intros o Ho. by apply elem_of_nil in Ho.
  - by intros [] o.
  - intros who o [Ho _]. by apply elem_of_nil in Ho.
Qed.

Lemma applyDelta_inv who newId delta t :
  TranscriptInv t → TranscriptInv (applyDelta who newId delta t).
Proof.
  intros [Hb Ha Hc Ho]. destruct (current who t) as [o|] eqn:Hcur.
  - rewrite (applyDelta_append _ _ _ _ _ Hcur).
    destruct (Hc _ _ Hcur) as [Hin (e & He & Hs & Hf)].
    split; simpl.
    + done.
    + intros o' Ho'. apply lookup_alter_is_Some. by apply Ha.
    + intros who' o' Hc'. change (current who' t = Some o') in Hc'.
      destruct (Hc _ _ Hc') as [Hin' (e' & He' & Hs' & Hf')].
      split; [done|]. simpl. rewrite lookup_alter.
      case_decide as Hd; [subst o'|eauto].
      rewrite He'. simpl. eexists; split; [done|]. done.
    + intros who' o' [Hin' (e' & He' & Hs' & Hf')]. simpl in *.
      change (current who' t = Some o'). apply Ho. split; [done|].
      rewrite lookup_alter in He'. case_decide as Hd; [subst o'|eauto].
      rewrite He in He'. simpl in He'. injection He' as <-. eauto.
  - rewrite (applyDelta_open _ _ _ _ Hcur).
    assert (Hfresh : ∀ o, o ∈ transcriptionsRef t → created t ≠ o).
    { intros o Hin <-. specialize (Hb _ Hin). lia. }
    split.
    + intros o. unfold set_current; simpl.
      rewrite elem_of_app, list_elem_of_singleton.
      intros [Hin| ->]; [specialize (Hb _ Hin)|]; lia.
    + intros o. unfold set_current; simpl.
      rewrite elem_of_app, list_elem_of_singleton, lookup_insert_is_Some.
      intros [Hin| ->]; auto.
    + intros who' o Hc'. unfold open_for, set_current at 1 2; simpl.
      rewrite elem_of_app, list_elem_of_singleton.
      destruct (decide (who = who')) as [<-|Hne].
      * rewrite current_same in Hc'. injection Hc' as <-.
        rewrite lookup_insert_eq. split; [by right | by eexists].
      * rewrite current_other in Hc' by done.
        change (current who' t = Some o) in Hc'.
        destruct (Hc _ _ Hc') as [Hin (e & He & Hs & Hf)].
        rewrite lookup_insert_ne by auto. split; [by left | eauto].
    + intros who' o [Hin (e & He & Hs & Hf)].
      unfold set_current in Hin, He; simpl in Hin, He.
      apply elem_of_app in Hin as [Hin| ->%list_elem_of_singleton].
      * rewrite lookup_insert_ne in He by auto.
        assert (Hcw : current who' t = Some o) by (apply Ho; split; eauto).
        destruct (decide (who = who')) as [<-|Hne]; [congruence|].
        by rewrite current_other.
      * rewrite lookup_insert_eq in He. injection He as <-. simpl in Hs.
        subst who'. by rewrite current_same.
Qed.
End transcript.

Section transcript_turns.
Implicit Types (t : TranscriptRefs) (who : Sender) (o : nat).

Lemma make_final_idemp e : make_final (make_final e) = make_final e.
Proof. done. Qed.

Lemma lookup_finalize slot (h : gmap nat Transcription) o :
  finalize slot h !! o =
    if decide (slot = Some o) then make_final <$> h !! o else h !! o.
Proof.
  destruct slot as [o'|]; unfold finalize.
  - rewrite lookup_alter.
    destruct (decide (o' = o)) as [->|Hne].
    + by rewrite decide_True.
    + rewrite decide_False; [done | congruence].
  - by rewrite decide_False.
Qed.

Lemma lookup_completeTurn t o :
  objects (completeTurn t) !! o =
    if decide (currentInputTranscriptionRef t = Some o ∨
               currentOutputTranscriptionRef t = Some o)
    then make_final <$> objects t !! o else objects t !! o.
Proof.
  simpl. rewrite !lookup_finalize.
  repeat case_decide; try tauto; try done.
  destruct (objects t !! o); simpl; by rewrite ?make_final_idemp.
Qed.

Lemma current_cases who t o :
  current who t = Some o →
  currentInputTranscriptionRef t = Some o ∨
  currentOutputTranscriptionRef t = Some o.
Proof. destruct who; simpl; auto. Qed.

Lemma completeTurn_inv t : TranscriptInv t → TranscriptInv (completeTurn t).
Proof.
  intros [Hb Ha Hc Ho]. split.
  - done.
  - intros o Hin. rewrite lookup_completeTurn.
    destruct (Ha _ Hin) as [e He]. rewrite He. by case_decide.
  - by intros [] o.
  - intros who o [Hin (e & He & Hs & Hf)]. exfalso.
    change (o ∈ transcriptionsRef t) in Hin.
    rewrite lookup_completeTurn in He.
    destruct (Ha _ Hin) as [e0 He0]. rewrite He0 in He.
    case_decide as Hd; simpl in He; injection He as <-; [done|].
    apply Hd. apply (current_cases (sender e0)), Ho. split; eauto.
Qed.

(** Calling [completeTurn] with no open entry changes nothing. *)
Lemma completeTurn_idle t :
  currentInputTranscriptionRef t = None →
  currentOutputTranscriptionRef t = None →
  completeTurn t = t.
Proof. destruct t; simpl; intros -> ->. done. Qed.

Lemma extends_refl e : extends e e.
Proof.
  repeat split; try done. exists "". by rewrite append_empty_r.
Qed.

Lemma extends_trans e1 e2 e3 : extends e1 e2 → extends e2 e3 → extends e1 e3.
Proof.
  intros (Hi & Hs & [x Hx] & Hf) (Hi' & Hs' & [y Hy] & Hf').
  repeat split; try congruence.
  - exists (x +:+ y). by rewrite Hy, Hx, append_assoc.
  - intros H1. specialize (Hf H1). subst e2. auto.
Qed.

Lemma evolves_refl t : evolves t t.
Proof. split; [lia|]. intros o e _ He. eauto using extends_refl. Qed.

Lemma evolves_trans t1 t2 t3 : evolves t1 t2 → evolves t2 t3 → evolves t1 t3.
Proof.
  intros [Hc H12] [Hc' H23]. split; [lia|].
  intros o e Hlt He. destruct (H12 _ _ Hlt He) as (e2 & He2 & Hx).
  destruct (H23 o e2) as (e3 & He3 & Hy); [lia|done|].
  eauto using extends_trans.
Qed.

Lemma current_bound who t o :
  TranscriptInv t → current who t = Some o → (o < created t)%nat.
Proof. intros [Hb _ Hc _] Hcur. apply Hb. by destruct (Hc _ _ Hcur). Qed.

Lemma current_open who t o e :
  TranscriptInv t → current who t = Some o → objects t !! o = Some e →
  sender e = who ∧ isFinal e = false.
Proof.
  intros [_ _ Hc _] Hcur He.
  destruct (Hc _ _ Hcur) as [_ (e' & He' & Hs & Hf)]. by simplify_eq.
Qed.

Lemma applyDelta_evolves who newId delta t :
  TranscriptInv t → evolves t (applyDelta who newId delta t).
Proof.
  intros Hinv. destruct (current who t) as [c|] eqn:Hcur.
  - rewrite (applyDelta_append _ _ _ _ _ Hcur). split; [done|].
    intros o e Hlt He. simpl. rewrite lookup_alter.
    case_decide as Hd; [subst c|eauto using extends_refl].
    rewrite He. simpl. eexists; split; [done|].
    destruct (current_open _ _ _ _ Hinv Hcur He) as [_ Hf].
    repeat split; simpl; eauto. congruence.
  - rewrite (applyDelta_open _ _ _ _ Hcur). unfold set_current. split; simpl; [lia|].
    intros o e Hlt He. rewrite lookup_insert_ne by lia.
    eauto using extends_refl.
Qed.

Lemma completeTurn_evolves t : TranscriptInv t → evolves t (completeTurn t).
Proof.
  intros Hinv. split; [done|]. intros o e Hlt He.
  rewrite lookup_completeTurn, He. case_decide as Hd; [|eauto using extends_refl].
  simpl. eexists; split; [done|].
  assert (isFinal e = false) as Hf.
  { destruct Hd as [Hd|Hd].
    - by apply (current_open user t o e).
    - by apply (current_open ai t o e). }
  repeat split; simpl; [|congruence].
  exists "". by rewrite append_empty_r.
Qed.

Lemma resetTranscript_evolves t : evolves t (resetTranscript t).
Proof. split; [done|]. intros o e _ He. simpl. eauto using extends_refl. Qed.
End transcript_turns.

(** ** Frames: what a computation leaves alone *)

Section frames.
Context {X : Type} (π : Refs → X).

Lemma preserves_ret {A} (a : A) : preserves π (ret a).
Proof. done. Qed.

Lemma preserves_throw {A} e : preserves π (@throw A e).
Proof. done. Qed.

Lemma preserves_get : preserves π get.
Proof. done. Qed.

Lemma preserves_call e : preserves π (call e).
Proof. done. Qed.

Lemma preserves_calls es : preserves π (calls es).
Proof. done. Qed.

Lemma preserves_modify f : (∀ s, π (f s) = π s) → preserves π (modify f).
Proof. intros Hf s. apply Hf. Qed.

Lemma preserves_bind {A B} (m : M A) (k : A → M B) :
  preserves π m → (∀ a, preserves π (k a)) → preserves π (bind m k).
Proof.
  intros Hm Hk s. specialize (Hm s). unfold bind, state_of in *.
  destruct (m s) as [[[a|e] s1] t1]; simpl in *; [|done].
  specialize (Hk a s1). unfold state_of in Hk.
  destruct (k a s1) as [[r s2] t2]; simpl in *. congruence.
Qed.

Lemma preserves_try_catch {A} (m : M A) (h : Exn → M A) :
  preserves π m → (∀ e, preserves π (h e)) → preserves π (try_catch m h).
Proof.
  intros Hm Hh s. specialize (Hm s). unfold try_catch, state_of in *.
  destruct (m s) as [[[a|e] s1] t1]; simpl in *; [done|].
  specialize (Hh e s1). unfold state_of in Hh.
  destruct (h e s1) as [[r s2] t2]; simpl in *. congruence.
Qed.

Lemma preserves_when b m : preserves π m → preserves π (when b m).
Proof. by destruct b. Qed.
End frames.

Ltac frame_step :=
  first
    [ apply preserves_ret | apply preserves_throw | apply preserves_get
    | apply preserves_call | apply preserves_calls
    | apply preserves_modify; intros ?; reflexivity
    | apply preserves_when
    | apply preserves_bind; [|intros ?]
    | apply preserves_try_catch; [|intros ?]
    | match goal with
      | |- preserves _ (match ?x with _ => _ end) => destruct x
      end ].

Ltac frame := repeat frame_step.
Ltac frame_using lem := repeat first [apply lem | frame_step].

Lemma cleanup_transcript : preserves transcript cleanup.
Proof. unfold cleanup, closeContext. frame. Qed.

Lemma fire_transcript t : preserves transcript (fire t).
Proof.
  destruct t; unfold fire, stopSession, closeSession, onerror, onclose;
    frame_using cleanup_transcript.
Qed.

Lemma switchCamera_transcript dev acquired :
  preserves transcript (switchCamera dev acquired).
Proof. unfold switchCamera. frame. Qed.

Lemma onopen_transcript env : preserves transcript (onopen env).
Proof. unfold onopen, startVideoFrameStreaming. frame. Qed.

Lemma onended_transcript source : preserves transcript (onended source).
Proof. unfold onended. frame. Qed.

Lemma routeAudio_transcript env m : preserves transcript (routeAudio env m).
Proof. unfold routeAudio, audioDataOf, enqueue, interrupt. frame. Qed.

Lemma switchCamera_playback dev acquired :
  preserves playback (switchCamera dev acquired).
Proof. unfold switchCamera. frame. Qed.

(** ** Stepping through a computation *)

Lemma bind_modify {B} f (k : unit → M B) s : bind (modify f) k s = k tt (f s).
Proof. unfold bind, modify. by destruct (k tt (f s)) as [[r s2] t2]. Qed.

Lemma bind_get {B} (k : Refs → M B) s : bind get k s = k s s.
Proof. unfold bind, get. by destruct (k s s) as [[r s2] t2]. Qed.

Lemma bind_ret {A B} (a : A) (k : A → M B) s : bind (ret a) k s = k a s.
Proof. unfold bind, ret. by destruct (k a s) as [[r s2] t2]. Qed.

Lemma bind_call {B} e (k : unit → M B) s :
  bind (call e) k s =
    (outcome_of (k tt s), state_of (k tt s), e :: effects_of (k tt s)).
Proof. unfold bind, call. by destruct (k tt s) as [[r s2] t2]. Qed.

Lemma bind_calls {B} es (k : unit → M B) s :
  bind (calls es) k s =
    (outcome_of (k tt s), state_of (k tt s), es ++ effects_of (k tt s)).
Proof. unfold bind, calls. by destruct (k tt s) as [[r s2] t2]. Qed.

Lemma bind_throw {A B} e (k : A → M B) s : bind (throw e) k s = (thrown e, s, []).
Proof. done. Qed.

Lemma bind_assoc {A B C} (m : M A) (k : A → M B) (h : B → M C) s :
  bind (bind m k) h s = bind m (λ a, bind (k a) h) s.
Proof.
  unfold bind. destruct (m s) as [[[a|e] s1] t1]; [|done].
  destruct (k a s1) as [[[b|e] s2] t2]; [|done].
  destruct (h b s2) as [[r s3] t3]. by rewrite app_assoc.
Qed.

Lemma run_eta {A} (r : Outcome A * Refs * list Effect) :
  r = (outcome_of r, state_of r, effects_of r).
Proof. by destruct r as [[? ?] ?]. Qed.

Lemma onmessage_unfold env m s :
  onmessage env m s =
    let s1 := with_transcript (turn env m) s in
    (outcome_of (routeAudio env m s1), state_of (routeAudio env m s1),
     onTranscriptionUpdate (transcriptionsRef (transcript s1))
                           (log (transcript s1))
       :: effects_of (routeAudio env m s1)).
Proof.
  unfold onmessage. rewrite bind_modify. unfold turn, when.
  destruct (turnComplete m).
  - rewrite bind_modify, bind_assoc, bind_get, bind_call. done.
  - rewrite bind_ret, bind_assoc, bind_get, bind_call. done.
Qed.

Lemma onmessage_transcript env m s :
  transcript (state_of (onmessage env m s)) = turn env m (transcript s).
Proof.
  rewrite onmessage_unfold. unfold state_of at 1. simpl.
  by rewrite routeAudio_transcript.
Qed.

Lemma routeTranscription_inv env m t :
  TranscriptInv t →
  TranscriptInv (routeTranscription env m t) ∧
  evolves t (routeTranscription env m t).
Proof.
  intros Hinv. unfold routeTranscription.
  destruct (inputTranscription m); [|destruct (outputTranscription m)];
    eauto using applyDelta_inv, applyDelta_evolves, evolves_refl.
Qed.

Lemma turn_inv env m t :
  TranscriptInv t → TranscriptInv (turn env m t) ∧ evolves t (turn env m t).
Proof.
  intros Hinv. unfold turn.
  destruct (routeTranscription_inv env m t Hinv) as [H1 H2].
  destruct (turnComplete m); [|done].
  eauto using completeTurn_inv, completeTurn_evolves, evolves_trans.
Qed.

Lemma startSession_transcript deviceId env s :
  transcript (state_of (startSession deviceId env s)) = transcript s ∨
  transcript (state_of (startSession deviceId env s)) =
    resetTranscript (transcript s).
Proof.
  unfold startSession, startSessionOf. rewrite bind_get.
  destruct (isConnected (session s) || isConnecting (session s)); [by left|].
  right. rewrite !bind_modify, bind_call. unfold state_of at 1. simpl.
  rewrite bind_modify.
  match goal with |- transcript (state_of (try_catch ?m ?h ?s0)) = _ =>
    assert (Hp : preserves transcript (try_catch m h))
      by frame_using cleanup_transcript;
    rewrite (Hp s0)
  end.
  done.
Qed.

Lemma handle_inv e s :
  TranscriptInv (transcript s) →
  TranscriptInv (transcript (state_of (handle e s))) ∧
  evolves (transcript s) (transcript (state_of (handle e s))).
Proof.
  intros Hinv. destruct e; unfold handle.
  - destruct (startSession_transcript deviceId env s) as [-> | ->];
      eauto using evolves_refl, resetTranscript_inv, resetTranscript_evolves.
  - rewrite onopen_transcript. eauto using evolves_refl.
  - rewrite onmessage_transcript. by apply turn_inv.
  - rewrite onended_transcript. eauto using evolves_refl.
  - rewrite fire_transcript. eauto using evolves_refl.
  - rewrite switchCamera_transcript. eauto using evolves_refl.
Qed.

Lemma run_inv es s :
  TranscriptInv (transcript s) →
  TranscriptInv (transcript (run es s).1) ∧
  evolves (transcript s) (transcript (run es s).1).
Proof.
  revert s. induction es as [|e es IH]; intros s Hinv; simpl.
  - eauto using evolves_refl.
  - destruct (handle_inv e s Hinv) as [H1 H2].
    destruct (IH _ H1) as [H3 H4]. eauto using evolves_trans.
Qed.

Lemma reachable_inv s : reachable s → TranscriptInv (transcript s).
Proof. intros [es <-]. apply run_inv, initial_inv. Qed.

(** ** Deltas and turns *)

Section deltas.
Implicit Types (t : TranscriptRefs) (who : Sender) (o : nat).

Lemma deref_insert_fresh (h : gmap nat Transcription) o e arr :
  o ∉ arr → deref (<[o:=e]> h) arr = deref h arr.
Proof.
  intros Hnin. unfold deref. apply list_fmap_ext.
  intros i o' Hi. rewrite lookup_insert_ne; [done|].
  intros <-. apply Hnin. by eapply list_elem_of_lookup_2.
Qed.

Lemma created_fresh t : TranscriptInv t → created t ∉ transcriptionsRef t.
Proof. intros [Hb _ _ _] Hin. specialize (Hb _ Hin). lia. Qed.

Lemma no_open_entry who t :
  TranscriptInv t → (current who t = None ↔ ¬ (∃ o, open_for who t o)).
Proof.
  intros [_ _ Hc Ho]. split.
  - intros Hn [o Hopen]. apply Ho in Hopen. congruence.
  - intros Hn. destruct (current who t) as [o|] eqn:Hcur; [|done].
    exfalso. apply Hn. exists o. by apply Hc.
Qed.

Lemma open_text_applyDelta who w newId delta t :
  TranscriptInv t →
  open_text who (applyDelta w newId delta t) =
    if decide (w = who) then open_text who t +:+ delta else open_text who t.
Proof.
  intros Hinv. destruct (current w t) as [c|] eqn:Hcur.
  - rewrite (applyDelta_append _ _ _ _ _ Hcur). unfold open_text.
    change (current who (set_objects _ t)) with (current who t).
    destruct (inv_current t Hinv _ _ Hcur) as [_ (e & He & Hs & Hf)].
    case_decide as Hd.
    + destruct Hd. rewrite Hcur. simpl. by rewrite lookup_alter_eq, He.
    + destruct (current who t) as [c'|] eqn:Hcur'; [|done]. simpl.
      rewrite lookup_alter_ne; [done|]. intros <-.
      destruct (inv_current t Hinv _ _ Hcur') as [_ (e' & He' & Hs' & Hf')].
      congruence.
  - rewrite (applyDelta_open _ _ _ _ Hcur). unfold open_text.
    case_decide as Hd.
    + destruct Hd. rewrite current_same, Hcur. unfold set_current; simpl.
      by rewrite lookup_insert_eq.
    + rewrite current_other by done.
      change (current who {| transcriptionsRef := _ |}) with (current who t).
      destruct (current who t) as [c'|] eqn:Hcur'; [|done].
      unfold set_current; simpl. rewrite lookup_insert_ne; [done|].
      pose proof (current_bound _ _ _ Hinv Hcur'). lia.
Qed.

Lemma applyDeltas_inv ds t : TranscriptInv t → TranscriptInv (applyDeltas ds t).
Proof.
  revert t. induction ds as [|[[w i] d] ds IH]; intros t Hinv; [done|].
  apply IH. by apply applyDelta_inv.
Qed.

Lemma open_text_applyDeltas who ds t :
  TranscriptInv t →
  open_text who (applyDeltas ds t) = open_text who t +:+ texts_of who ds.
Proof.
  revert t. induction ds as [|[[w i] d] ds IH]; intros t Hinv.
  - simpl. by rewrite append_empty_r.
  - change (applyDeltas ((w, i, d) :: ds) t)
      with (applyDeltas ds (applyDelta w i d t)).
    rewrite IH by (by apply applyDelta_inv).
    rewrite open_text_applyDelta by done. simpl.
    case_decide; [by rewrite append_assoc | done].
Qed.
End deltas.

(** C4 (amended).  From any state of the log, [applyDelta who newId delta]
    opens a new entry exactly when the sender has no open (non-final) entry
    in the log, which is what the code tests through the sender's "current"
    ref.  The new entry is a new object, added at the end of the log, with
    empty text to which [delta] is appended, and with the id that
    [generateId()] returned for this call; the id is not compared with the
    ids already in the log.  Otherwise [delta] is appended in place to the
    open entry and nothing else changes.  Over a run of deltas the text of
    a sender's open entry grows by that sender's deltas in arrival order,
    and after [completeTurn] the next delta opens a new entry and leaves
    every existing entry as it was. *)
Theorem applyDelta_aggregates (t : TranscriptRefs) (who : Sender)
    (newId delta : string) :
  TranscriptInv t →
  (current who t = None ↔ ¬ (∃ o, open_for who t o)) ∧
  (current who t = None →
     (created t ∉ transcriptionsRef t) ∧
     log (applyDelta who newId delta t) =
       log t ++ [Some {| id := newId; sender := who; text := "" +:+ delta;
                         isFinal := false |}] ∧
     current who (applyDelta who newId delta t) = Some (created t)) ∧
  (∀ o e, current who t = Some o → objects t !! o = Some e →
     applyDelta who newId delta t =
       set_objects (<[o := append_text delta e]> (objects t)) t) ∧
  (∀ ds, open_text who (applyDeltas ds t) =
           open_text who t +:+ texts_of who ds) ∧
  (log (applyDelta who newId delta (completeTurn t)) =
     log (completeTurn t) ++
       [Some {| id := newId; sender := who; text := delta; isFinal := false |}]).
Proof.
  intros Hinv.
  assert (Hopen : ∀ t', TranscriptInv t' → current who t' = None →
    log (applyDelta who newId delta t') =
      log t' ++ [Some {| id := newId; sender := who; text := delta;
                         isFinal := false |}]).
  { intros t' Hinv' Hcur. rewrite (applyDelta_open _ _ _ _ Hcur).
    unfold log, set_current; simpl. unfold deref. rewrite fmap_app. simpl.
    rewrite lookup_insert_eq. f_equal.
    apply deref_insert_fresh. by apply created_fresh. }
  split; [by apply no_open_entry|].
  split; [|split; [|split]].
  - intros Hcur. split; [by apply created_fresh|]. split; [by apply Hopen|].
    rewrite (applyDelta_open _ _ _ _ Hcur). apply current_same.
  - intros o e Hcur He. rewrite (applyDelta_append _ _ _ _ _ Hcur).
    f_equal. apply map_eq. intros i. rewrite lookup_alter, lookup_insert.
    case_decide; [subst i; by rewrite He | done].
  - intros ds. by apply open_text_applyDeltas.
  - apply Hopen; [by apply completeTurn_inv | by destruct who].
Qed.

(** From the empty log, "hel" then "lo" give one entry, still open, that
    reads "hello". *)
Lemma applyDelta_aggregates_witness :
  let t := applyDeltas [(user, "k3x9q2a", "hel"); (user, "p0v7m1c", "lo")]
             (transcript initial) in
  TranscriptInv (transcript initial) ∧
  open_text user t = "hello" ∧
  log t = [Some {| id := "k3x9q2a"; sender := user; text := "hello";
                   isFinal := false |}].
Proof.
  intros t. split; [exact initial_inv|]. split; [|reflexivity].
  destruct (applyDelta_aggregates (transcript initial) user "" "" initial_inv)
    as (_ & _ & _ & H & _).
  subst t. rewrite H. reflexivity.
Defined.

(** The id of a new entry need not be new: [generateId] draws it at random
    (seven base-36 digits of [Math.random()]) and the same string can come
    out twice. *)
Lemma applyDelta_id_not_fresh :
  ¬ (∀ t who (newId : string) o e,
       TranscriptInv t → current who t = None →
       o ∈ transcriptionsRef t → objects t !! o = Some e →
       id e ≠ newId).
Proof.
  intros H.
  pose (t1 := completeTurn (applyDelta user "k3x9q2a" "a" (transcript initial))).
  apply (H t1 user "k3x9q2a" 0%nat
           {| id := "k3x9q2a"; sender := user; text := "a"; isFinal := true |}).
  - apply completeTurn_inv, applyDelta_inv, initial_inv.
  - reflexivity.
  - apply list_elem_of_here.
  - reflexivity.
  - reflexivity.
Qed.

(** How [onmessage] reaches the aggregator: one delta per message (the
    user's if both transcriptions are present), then the turn boundary. *)
Lemma onmessage_routes env m s :
  transcript (state_of (onmessage env m s)) =
    let t1 :=
      match inputTranscription m, outputTranscription m with
      | Some txt, _ => applyDelta user (generatedId env) (toText txt) (transcript s)
      | None, Some txt => applyDelta ai (generatedId env) (toText txt) (transcript s)
      | None, None => transcript s
      end in
    if turnComplete m then completeTurn t1 else t1.
Proof.
  rewrite onmessage_transcript. unfold turn, routeTranscription.
  by destruct (inputTranscription m), (outputTranscription m).
Qed.

Lemma make_final_final e : isFinal e = true → make_final e = e.
Proof. destruct e; simpl; by intros ->. Qed.

Lemma completeTurn_lookup_log t o e :
  TranscriptInv t → o ∈ transcriptionsRef t → objects t !! o = Some e →
  objects (completeTurn t) !! o = Some (make_final e).
Proof.
  intros Hinv Hin He. rewrite lookup_completeTurn, He.
  case_decide as Hd; [done|].
  destruct (isFinal e) eqn:Hf; [by rewrite make_final_final|].
  exfalso. apply Hd, (current_cases (sender e)), (inv_open t Hinv).
  split; eauto.
Qed.

(** C5 (amended).  [completeTurn] keeps the log's entries in place, makes
    every entry of the log final without touching its id, sender or text,
    and clears both "current" refs, so the next delta of either sender
    opens a new entry at the end of the log.  With no open entry it
    changes nothing.  A user delta, an ai delta and a turn boundary add
    exactly two final entries, the user's then the ai's, each carrying the
    id that [generateId()] returned when it was opened; the two ids differ
    exactly when the two random draws differ. *)
Theorem completeTurn_finalizes (t : TranscriptRefs) :
  TranscriptInv t →
  transcriptionsRef (completeTurn t) = transcriptionsRef t ∧
  (∀ o e, o ∈ transcriptionsRef t → objects t !! o = Some e →
     objects (completeTurn t) !! o = Some (make_final e)) ∧
  (∀ who, current who (completeTurn t) = None) ∧
  (∀ who newId delta,
     transcriptionsRef (applyDelta who newId delta (completeTurn t)) =
       transcriptionsRef t ++ [created t]) ∧
  ((∀ who, current who t = None) → completeTurn t = t) ∧
  (∀ idUser idAi a b, (∀ who, current who t = None) →
     log (completeTurn (applyDelta ai idAi b (applyDelta user idUser a t))) =
       log t ++
         [Some {| id := idUser; sender := user; text := a; isFinal := true |};
          Some {| id := idAi; sender := ai; text := b; isFinal := true |}]).
Proof.
  intros Hinv. split; [done|].
  split; [intros o e; by apply completeTurn_lookup_log|].
  split; [by intros []|].
  split.
  { intros who newId delta.
    rewrite applyDelta_open by (by destruct who). by destruct who. }
  split.
  { intros Hnone. apply completeTurn_idle; [apply (Hnone user)|apply (Hnone ai)]. }
  intros idUser idAi a b Hnone.
  pose proof (created_fresh t Hinv) as Hfresh.
  assert (Hold : ∀ o, o ∈ transcriptionsRef t → o ≠ created t ∧ o ≠ S (created t)).
  { intros o Hin. pose proof (inv_bound t Hinv o Hin). lia. }
  rewrite (applyDelta_open user) by apply (Hnone user).
  rewrite (applyDelta_open ai) by apply (Hnone ai).
  unfold log, deref, set_current; simpl.
  rewrite !fmap_app. simpl. rewrite <- app_assoc. simpl.
  f_equal; [|f_equal; [|f_equal]].
  - apply list_fmap_ext. intros i o Hi.
    apply list_elem_of_lookup_2 in Hi.
    destruct (Hold _ Hi) as [H1 H2].
    rewrite !lookup_alter_ne by congruence.
    by rewrite !lookup_insert_ne by congruence.
  - rewrite lookup_alter_ne by lia. rewrite lookup_alter_eq.
    rewrite lookup_insert_ne by lia. by rewrite lookup_insert_eq.
  - rewrite lookup_alter_eq. rewrite lookup_alter_ne by lia.
    by rewrite lookup_insert_eq.
Qed.

(** From the empty log: user "a", ai "b", turn complete. *)
Lemma completeTurn_finalizes_witness :
  TranscriptInv (transcript initial) ∧
  log (completeTurn (applyDelta ai "p0v7m1c" "b"
         (applyDelta user "k3x9q2a" "a" (transcript initial)))) =
    [Some {| id := "k3x9q2a"; sender := user; text := "a"; isFinal := true |};
     Some {| id := "p0v7m1c"; sender := ai; text := "b"; isFinal := true |}].
Proof.
  split; [exact initial_inv|].
  destruct (completeTurn_finalizes (transcript initial) initial_inv)
    as (_ & _ & _ & _ & _ & H).
  apply (H "k3x9q2a" "p0v7m1c" "a" "b"). by intros [].
Defined.

(** When [generateId()] returns the same string for both entries, the two
    finalized entries carry the same id. *)
Lemma interleaved_ids_coincide :
  ∃ e1 e2,
    log (completeTurn (applyDelta ai "k3x9q2a" "b"
           (applyDelta user "k3x9q2a" "a" (transcript initial)))) =
      [Some e1; Some e2] ∧
    sender e1 = user ∧ sender e2 = ai ∧ id e1 = id e2.
Proof.
  exists {| id := "k3x9q2a"; sender := user; text := "a"; isFinal := true |},
         {| id := "k3x9q2a"; sender := ai; text := "b"; isFinal := true |}.
  repeat split; reflexivity.
Qed.

(** ** Playback scheduling *)

Lemma enqueue_ok env data d s :
  decodeAudioData env = Some d →
  enqueue env data s =
    (returned tt, enqueued (currentTime env) d s,
     [decode data;
      sourceStart (sourcesCreated (playback s))
        (Z.max (nextStartTimeRef (playback s)) (currentTime env))]).
Proof.
  intros Hd. unfold enqueue. rewrite Hd.
  rewrite bind_modify, bind_call, bind_get, bind_call. reflexivity.
Qed.

Lemma enqueue_fail env data s :
  decodeAudioData env = None →
  enqueue env data s =
    (thrown DecodeFailure,
     with_playback (λ p,
       set_nextStartTimeRef (Z.max (nextStartTimeRef p) (currentTime env)) p) s,
     [decode data]).
Proof.
  intros Hd. unfold enqueue. rewrite Hd.
  rewrite bind_modify, bind_call. reflexivity.
Qed.

Lemma interrupt_run s :
  interrupt s =
    (returned tt, flushed s, sourceStop <$> audioSourcesRef (playback s)).
Proof.
  unfold interrupt. rewrite bind_get, bind_calls. unfold modify; simpl.
  by rewrite app_nil_r.
Qed.

Lemma routeAudio_chunk env m data s :
  carries_audio m data → output_ready s →
  routeAudio env m s = (enqueue env data ;; when (interrupted m) interrupt) s.
Proof.
  intros (p & ps & Hm & Hp & Ht) [[c Hc] [g Hg]].
  unfold routeAudio, audioDataOf. rewrite Hm. simpl.
  rewrite bind_ret, bind_get, Hp, Hc, Hg, Ht. done.
Qed.

Lemma routeAudio_scheduled env m data d s :
  carries_audio m data → output_ready s → decodeAudioData env = Some d →
  routeAudio env m s =
    (returned tt,
     (if interrupted m then flushed else λ x, x) (enqueued (currentTime env) d s),
     [decode data;
      sourceStart (sourcesCreated (playback s))
        (Z.max (nextStartTimeRef (playback s)) (currentTime env))]
     ++ (if interrupted m
         then sourceStop <$>
                audioSourcesRef (playback (enqueued (currentTime env) d s))
         else [])).
Proof.
  intros Hm Hr Hd. rewrite (routeAudio_chunk _ _ _ _ Hm Hr).
  unfold bind. rewrite (enqueue_ok _ _ _ _ Hd).
  destruct (interrupted m); unfold when; [by rewrite interrupt_run|done].
Qed.

Lemma routeAudio_dropped env m data s :
  carries_audio m data → output_ready s → decodeAudioData env = None →
  routeAudio env m s =
    (thrown DecodeFailure,
     with_playback (λ p,
       set_nextStartTimeRef (Z.max (nextStartTimeRef p) (currentTime env)) p) s,
     [decode data]).
Proof.
  intros Hm Hr Hd. rewrite (routeAudio_chunk _ _ _ _ Hm Hr).
  unfold bind. by rewrite (enqueue_fail _ _ _ Hd).
Qed.

Lemma onmessage_output_context env m :
  preserves (λ s, outputAudioContextRef (playback s)) (onmessage env m).
Proof.
  unfold onmessage, routeAudio, audioDataOf, enqueue, interrupt. frame.
Qed.

Lemma onmessage_output_gain env m :
  preserves (λ s, outputGainNodeRef (playback s)) (onmessage env m).
Proof.
  unfold onmessage, routeAudio, audioDataOf, enqueue, interrupt. frame.
Qed.

Lemma onmessage_output_ready env m s :
  output_ready s → output_ready (state_of (onmessage env m s)).
Proof.
  unfold output_ready.
  by rewrite (onmessage_output_context env m s), (onmessage_output_gain env m s).
Qed.

Lemma onmessage_enqueues d env m s :
  enqueues d (env, m) → output_ready s →
  playback (state_of (onmessage env m s)) =
    playback (enqueued (currentTime env) d s) ∧
  starts (effects_of (onmessage env m s)) =
    [Z.max (nextStartTimeRef (playback s)) (currentTime env)].
Proof.
  intros ([data Hm] & Hd & Hi) Hr. simpl in *.
  rewrite onmessage_unfold. cbv zeta.
  rewrite (routeAudio_scheduled env m data d) by done.
  rewrite Hi. unfold state_of, effects_of. simpl. done.
Qed.

Lemma starts_app e1 e2 : starts (e1 ++ e2) = starts e1 ++ starts e2.
Proof. apply omap_app. Qed.

(** *** In seconds *)

Lemma Math_max_not_behind clock now :
  not_behind clock now → Math_max clock now = clock.
Proof.
  unfold Math_max. intros [Hlt | [-> He]].
  - by rewrite Hlt.
  - rewrite He. destruct (clock <? clock)%float; [done|].
    by destruct (classify clock).
Qed.

Lemma enqueueChunk_decoded c d p :
  decodes c d →
  enqueueChunk c p =
    (returned tt,
     {| nextStartTime := (Math_max (nextStartTime p) (arrival c) + d)%float;
        liveSources := set_add (createdSources p) (liveSources p);
        createdSources := S (createdSources p) |},
     [decodeCall (payload c);
      startCall (createdSources p) (Math_max (nextStartTime p) (arrival c))]).
Proof. intros Hd. unfold enqueueChunk. by rewrite Hd. Qed.

Lemma startTimes_app e1 e2 : startTimes (e1 ++ e2) = startTimes e1 ++ startTimes e2.
Proof. apply omap_app. Qed.

Lemma enqueueChunks_on_time cs ds p :
  Forall2 decodes cs ds → on_time cs p →
  nextStartTime (enqueueChunks cs p).1 = running_sum (nextStartTime p) ds ∧
  length (startTimes (enqueueChunks cs p).2) = length ds ∧
  ∀ k t, startTimes (enqueueChunks cs p).2 !! k = Some t →
         t = running_sum (nextStartTime p) (take k ds).
Proof.
  intros Hall. revert p.
  induction Hall as [|c d cs ds Hd Hall IH]; intros p Hot.
  - simpl. split; [done|]. split; [done|]. intros k t Hk.
    by rewrite lookup_nil in Hk.
  - destruct Hot as [Hnow Hot].
    rewrite (enqueueChunk_decoded c d p Hd) in Hot. cbn [fst snd] in Hot.
    cbn [enqueueChunks]. rewrite (enqueueChunk_decoded c d p Hd). cbn [fst snd].
    rewrite (Math_max_not_behind _ _ Hnow) in *.
    destruct (IH _ Hot) as (IH1 & IH2 & IH3). cbn [nextStartTime] in *.
    split; [exact IH1|]. split; [simpl; by rewrite IH2|].
    intros [|k] t; simpl.
    + by intros [= <-].
    + apply IH3.
Qed.

Lemma running_sum_take_S start (ds : list float) k d :
  ds !! k = Some d →
  running_sum start (take (S k) ds) = (running_sum start (take k ds) + d)%float.
Proof.
  revert start k. induction ds as [|x ds IH]; intros start [|k] Hk; simplify_eq/=.
  - by destruct ds.
  - apply (IH _ _ Hk).
Qed.

Lemma exact_running_sum start ds :
  no_rounding start ds → (exact (running_sum start ds) == exact_sum start ds)%Q.
Proof.
  revert start. induction ds as [|d ds IH]; intros start Hn; [reflexivity|].
  destruct Hn as [H1 Hn]. cbn [running_sum exact_sum foldl].
  specialize (IH _ Hn). unfold running_sum, exact_sum in IH. rewrite IH.
  clear IH Hn. revert H1. generalize (exact (start + d)%float) (exact start + exact d)%Q.
  induction ds as [|x ds IH]; intros a b Hab; [exact Hab|].
  cbn [foldl]. apply IH. by rewrite Hab.
Qed.

(** C1 (amended).  A run of chunks that all decode, of durations d1..dn,
    enqueued with no interruption, each after the first while the clock is
    not behind the context time.  The k-th call of [source.start] is at
    the start time of the first chunk with d1, ..., d(k-1) added to it one
    after the other as the code adds them, in double precision: each chunk
    starts at the double [t + d] computed from the start time [t] and the
    duration [d] of the chunk before it.  That is the exact sum whenever
    none of these additions rounds.  Every single enqueue starts its
    source at [Math.max(nextStartTimeRef, currentTime)] and leaves
    [nextStartTimeRef] at that time plus the chunk's duration. *)
Theorem running_sum_schedule (p : Timeline) (c1 : Chunk) (cs : list Chunk)
    (d1 : float) (ds : list float) :
  Forall2 decodes (c1 :: cs) (d1 :: ds) →
  on_time cs (enqueueChunk c1 p).1.2 →
  let sts := startTimes (enqueueChunks (c1 :: cs) p).2 in
  let start1 := Math_max (nextStartTime p) (arrival c1) in
  length sts = length (d1 :: ds) ∧
  (∀ k t, sts !! k = Some t → t = running_sum start1 (take k (d1 :: ds))) ∧
  (∀ k t t' d, sts !! k = Some t → sts !! S k = Some t' →
               (d1 :: ds) !! k = Some d → t' = (t + d)%float) ∧
  (∀ k t, sts !! k = Some t → no_rounding start1 (take k (d1 :: ds)) →
          (exact t == exact_sum start1 (take k (d1 :: ds)))%Q) ∧
  (∀ p' c d, decodes c d →
     startTimes (enqueueChunk c p').2 = [Math_max (nextStartTime p') (arrival c)] ∧
     nextStartTime (enqueueChunk c p').1.2 =
       (Math_max (nextStartTime p') (arrival c) + d)%float).
Proof.
  intros Hall Hot sts start1.
  inversion Hall as [|? ? ? ? Hd Hrest]; subst.
  assert (Hsum : length sts = length (d1 :: ds) ∧
    ∀ k t, sts !! k = Some t → t = running_sum start1 (take k (d1 :: ds))).
  { subst sts. cbn [enqueueChunks]. 
    rewrite (enqueueChunk_decoded c1 d1 p Hd) in *. cbn [fst snd] in *.
    destruct (enqueueChunks_on_time cs ds _ Hrest Hot) as (_ & H2 & H3).
    cbn [nextStartTime] in H3.
    split; [simpl; by rewrite H2|].
    intros [|k] t; simpl; [by intros [= <-]|apply H3]. }
  destruct Hsum as [Hlen Hsum].
  split; [exact Hlen|]. split; [exact Hsum|]. split; [|split].
  - intros k t t' d Ht Ht' Hk.
    by rewrite (Hsum _ _ Ht'), (Hsum _ _ Ht), (running_sum_take_S _ _ _ _ Hk).
  - intros k t Ht Hn. rewrite (Hsum _ _ Ht). by apply exact_running_sum.
  - intros p' c d Hc. by rewrite (enqueueChunk_decoded c d p' Hc).
Qed.

(** Three chunks of 40 ms; the first arrives half a second into the
    session, the others while earlier audio is queued. *)
Lemma running_sum_schedule_witness :
  let c1 := chunk_at 0.5 "AAAA" in
  let cs := [chunk_at 0.53125 "BBBB"; chunk_at 0.5625 "CCCC"] in
  on_time cs (enqueueChunk c1 idle_timeline).1.2 ∧
  startTimes (enqueueChunks (c1 :: cs) idle_timeline).2 =
    [0.5; 0.5 + forty_ms; (0.5 + forty_ms) + forty_ms]%float ∧
  ∀ k t t' d, startTimes (enqueueChunks (c1 :: cs) idle_timeline).2 !! k = Some t →
              startTimes (enqueueChunks (c1 :: cs) idle_timeline).2 !! S k = Some t' →
              [forty_ms; forty_ms; forty_ms] !! k = Some d → t' = (t + d)%float.
Proof.
  intros c1 cs.
  assert (Hall : Forall2 decodes (c1 :: cs) [forty_ms; forty_ms; forty_ms])
    by (by repeat constructor).
  assert (Hot : on_time cs (enqueueChunk c1 idle_timeline).1.2).
  { split; [by left|]. split; [by left|]. exact I. }
  split; [exact Hot|]. split; [reflexivity|].
  exact (proj1 (proj2 (proj2 (running_sum_schedule idle_timeline c1 cs forty_ms
                                [forty_ms; forty_ms] Hall Hot)))).
Defined.

(** Three chunks of 40 ms, the first started at 0.5 s.  The sum 0.5 + 0.04
    is rounded: the second chunk starts 5 * 2^-57 s after the first one
    ends.  The third start time, (0.5 + 0.04) + 0.04, is the double
    0.5800000000000001, while 0.5 + (0.04 + 0.04) is the double 0.58: the
    third chunk does not start at the first start time plus the sum of the
    durations before it, neither in exact nor in double arithmetic. *)
Lemma exact_sum_fails :
  let c1 := chunk_at 0.5 "AAAA" in
  let cs := [chunk_at 0.53125 "BBBB"; chunk_at 0.5625 "CCCC"] in
  let ds := [forty_ms; forty_ms; forty_ms] in
  Forall2 decodes (c1 :: cs) ds ∧
  on_time cs (enqueueChunk c1 idle_timeline).1.2 ∧
  startTimes (enqueueChunks (c1 :: cs) idle_timeline).2 =
    [0.5; 0.5 + forty_ms; (0.5 + forty_ms) + forty_ms]%float ∧
  (exact (0.5 + forty_ms)%float - (exact 0.5%float + exact forty_ms)
     == 5 # 144115188075855872)%Q ∧
  ((0.5 + forty_ms) + forty_ms)%float ≠ (0.5 + (forty_ms + forty_ms))%float ∧
  ¬ (∀ p c1 cs d1 ds,
       Forall2 decodes (c1 :: cs) (d1 :: ds) →
       on_time cs (enqueueChunk c1 p).1.2 →
       ∀ k t, startTimes (enqueueChunks (c1 :: cs) p).2 !! k = Some t →
              (exact t ==
               exact_sum (Math_max (nextStartTime p) (arrival c1))
                 (take k (d1 :: ds)))%Q) ∧
  ¬ (∀ p c1 cs d1 ds,
       Forall2 decodes (c1 :: cs) (d1 :: ds) →
       on_time cs (enqueueChunk c1 p).1.2 →
       ∀ k t, startTimes (enqueueChunks (c1 :: cs) p).2 !! k = Some t →
              t = (Math_max (nextStartTime p) (arrival c1)
                   + running_sum 0 (take k (d1 :: ds)))%float).
Proof.
  intros c1 cs ds.
  assert (Hall : Forall2 decodes (c1 :: cs) ds) by (by repeat constructor).
  assert (Hot : on_time cs (enqueueChunk c1 idle_timeline).1.2).
  { split; [by left|]. split; [by left|]. exact I. }
  split; [exact Hall|]. split; [exact Hot|]. split; [reflexivity|].
  split; [apply Qeq_bool_iff; vm_compute; reflexivity|].
  split; [|split].
  - intros E. apply (f_equal Prim2SF) in E. vm_compute in E. discriminate E.
  - intros H.
    specialize (H idle_timeline c1 cs forty_ms [forty_ms; forty_ms] Hall Hot
                  1%nat (0.5 + forty_ms)%float eq_refl).
    apply Qeq_bool_iff in H. vm_compute in H. discriminate H.
  - intros H.
    specialize (H idle_timeline c1 cs forty_ms [forty_ms; forty_ms] Hall Hot
                  2%nat ((0.5 + forty_ms) + forty_ms)%float eq_refl).
    apply (f_equal Prim2SF) in H. vm_compute in H. discriminate H.
Qed.

Lemma onmessage_interrupted env m s :
  modelTurn m = None → interrupted m = true →
  playback (state_of (onmessage env m s)) = playback (state_of (interrupt s)) ∧
  effects_of (onmessage env m s) =
    onTranscriptionUpdate (transcriptionsRef (turn env m (transcript s)))
                          (log (turn env m (transcript s)))
      :: effects_of (interrupt s).
Proof.
  intros Hm Hi. rewrite onmessage_unfold. cbv zeta.
  unfold routeAudio, audioDataOf. rewrite Hm, Hi.
  rewrite bind_ret, bind_get, bind_ret. unfold when.
  rewrite !interrupt_run. done.
Qed.

Lemma release_stops (l : list nat) :
  List.filter is_release (sourceStop <$> l) = sourceStop <$> l.
Proof.
  induction l as [|x l IH]; [done|].
  rewrite fmap_cons. cbn [List.filter is_release]. by rewrite IH.
Qed.

(** C2.  From every state, [interrupt] (lines 230-232, run by [onmessage]
    for a message whose [interrupted] flag is set) calls [stop()] on every
    source of the live set, in the set's order, leaves the set empty and
    sets [nextStartTimeRef] to 0, changing nothing else.  With an empty
    live set it stops nothing and does not throw.  A chunk enqueued next,
    at a context time [now >= 0], starts at [now], whatever the clock was
    before the interruption. *)
Theorem interrupt_flushes (s : Refs) (env : MessageEnv) (m : LiveServerMessage)
    (d : Z) :
  output_ready s → enqueues d (env, m) → 0 ≤ currentTime env →
  interrupt s =
    (returned tt, flushed s, sourceStop <$> audioSourcesRef (playback s)) ∧
  audioSourcesRef (playback (flushed s)) = [] ∧
  nextStartTimeRef (playback (flushed s)) = 0 ∧
  (audioSourcesRef (playback s) = [] → effects_of (interrupt s) = []) ∧
  (∀ env0 m0, modelTurn m0 = None → interrupted m0 = true →
     playback (state_of (onmessage env0 m0 s)) = playback (flushed s) ∧
     List.filter is_release (effects_of (onmessage env0 m0 s)) =
       sourceStop <$> audioSourcesRef (playback s)) ∧
  starts (effects_of (onmessage env m (flushed s))) = [currentTime env] ∧
  nextStartTimeRef (playback (state_of (onmessage env m (flushed s)))) =
    currentTime env + d.
Proof.
  intros Hr Hd Hnow.
  split; [apply interrupt_run|]. split; [done|]. split; [done|].
  split; [intros Hnil; by rewrite interrupt_run, Hnil|].
  split.
  { intros env0 m0 Hm0 Hi0.
    destruct (onmessage_interrupted env0 m0 s Hm0 Hi0) as [Hp He].
    rewrite Hp, He, interrupt_run. split; [done|].
    unfold effects_of. cbn [snd List.filter is_release].
    apply release_stops. }
  assert (Hr' : output_ready (flushed s)) by exact Hr.
  destruct (onmessage_enqueues d env m (flushed s) Hd Hr') as [Hp Hs].
  rewrite Hs, Hp. simpl. split; [f_equal; lia | lia].
Qed.

(** Two chunks are queued and the clock stands at 10000; after the
    interruption a chunk arriving at frame 2000 starts at 2000. *)
Lemma interrupt_flushes_witness :
  nextStartTimeRef (playback queued_session) = 10000 ∧
  effects_of (interrupt queued_session) = [sourceStop 0%nat; sourceStop 1%nat] ∧
  starts (effects_of (onmessage (at_time 2000 (Some 480)) (chunk "CCCC" false)
                        (flushed queued_session))) = [2000].
Proof.
  assert (Hready : output_ready queued_session)
    by (split; eexists; reflexivity).
  assert (Hd : enqueues 480 (at_time 2000 (Some 480), chunk "CCCC" false)).
  { repeat split. eexists. eexists {| inlineData := Some _ |}, []. done. }
  assert (Hnow : 0 ≤ currentTime (at_time 2000 (Some 480))) by (simpl; lia).
  destruct (interrupt_flushes queued_session _ _ 480 Hready Hd Hnow)
    as (Hi & _ & _ & _ & _ & Hs & _).
  split; [reflexivity|]. split; [by rewrite Hi | exact Hs].
Defined.

(** C6.  For a message that carries an audio chunk, the first call
    [onmessage] makes is [onTranscriptionUpdate]: the array handed over
    lists the log, and its entries read at that moment, as the transcript
    part of the message (delta, then turn boundary) left them.  [decode]
    is the next call and [source.start] comes after it; the observer is
    not called again. *)
Theorem transcript_before_audio (s : Refs) (env : MessageEnv)
    (m : LiveServerMessage) (data : string) :
  output_ready s → carries_audio m data →
  let updated := turn env m (transcript s) in
  transcript (state_of (onmessage env m s)) = updated ∧
  ∃ after,
    effects_of (onmessage env m s) =
      onTranscriptionUpdate (transcriptionsRef updated) (log updated)
        :: decode data :: after ∧
    Forall (λ e, is_notification e = false) after ∧
    (∀ d, decodeAudioData env = Some d →
       ∃ stops,
         after = sourceStart (sourcesCreated (playback s))
                   (Z.max (nextStartTimeRef (playback s)) (currentTime env))
                   :: (sourceStop <$> stops)) ∧
    (decodeAudioData env = None → after = []).
Proof.
  intros Hr Hm updated. split; [apply onmessage_transcript|].
  rewrite onmessage_unfold. cbv zeta.
  assert (Hr' : output_ready (with_transcript (turn env m) s)) by exact Hr.
  destruct (decodeAudioData env) as [d|] eqn:Hd.
  - rewrite (routeAudio_scheduled env m data d) by done.
    eexists. split; [reflexivity|]. split; [|split; [|done]].
    + constructor; [done|].
      destruct (interrupted m); [|constructor].
      apply Forall_fmap, Forall_true. done.
    + intros d' [= <-]. destruct (interrupted m).
      * eexists. reflexivity.
      * by exists [].
  - rewrite (routeAudio_dropped env m data) by done.
    eexists. split; [reflexivity|]. split; [constructor|]. split; [done|done].
Qed.

(** The scenario of the spec: the observer is handed the finished entry
    "Hi" before the chunk is decoded. *)
Lemma transcript_before_audio_witness :
  output_ready live_session ∧ carries_audio hi_with_audio "AAAA" ∧
  ∃ after,
    effects_of (onmessage (at_time 100 (Some 480)) hi_with_audio live_session) =
      onTranscriptionUpdate [0%nat]
        [Some {| id := "k3x9q2a"; sender := ai; text := "Hi"; isFinal := true |}]
        :: decode "AAAA" :: after.
Proof.
  assert (Hready : output_ready live_session)
    by (split; eexists; reflexivity).
  assert (Hm : carries_audio hi_with_audio "AAAA")
    by (by exists {| inlineData := Some "AAAA" |}, []).
  split; [exact Hready|]. split; [exact Hm|].
  destruct (transcript_before_audio live_session (at_time 100 (Some 480))
              hi_with_audio "AAAA" Hready Hm) as [_ (after & He & _)].
  exists after. exact He.
Defined.

(** ** What the observer is handed *)

Section emitted.
Context (P : Effect → Prop).

Lemma emits_ret {A} (a : A) : emits P (ret a).
Proof. intros s. constructor. Qed.

Lemma emits_throw {A} e : emits P (@throw A e).
Proof. intros s. constructor. Qed.

Lemma emits_get : emits P get.
Proof. intros s. constructor. Qed.

Lemma emits_modify f : emits P (modify f).
Proof. intros s. constructor. Qed.

Lemma emits_call e : P e → emits P (call e).
Proof. intros He s. by repeat constructor. Qed.

Lemma emits_calls es : Forall P es → emits P (calls es).
Proof. intros He s. exact He. Qed.

Lemma emits_when b m : emits P m → emits P (when b m).
Proof. destruct b; [done|]. intros _. apply emits_ret. Qed.

Lemma emits_bind {A B} (m : M A) (k : A → M B) :
  emits P m → (∀ a, emits P (k a)) → emits P (bind m k).
Proof.
  intros Hm Hk s. specialize (Hm s). unfold bind, effects_of in *.
  destruct (m s) as [[[a|e] s1] t1]; simpl in *; [|done].
  specialize (Hk a s1). unfold effects_of in Hk.
  destruct (k a s1) as [[r s2] t2]; simpl in *. by apply Forall_app.
Qed.
End emitted.

Ltac emits_step :=
  first
    [ apply emits_ret | apply emits_throw | apply emits_get | apply emits_modify
    | apply emits_call; done
    | apply emits_calls; apply Forall_fmap, Forall_true; done
    | apply emits_when
    | apply emits_bind; [|intros ?]
    | match goal with
      | |- emits _ (match ?x with _ => _ end) => destruct x
      end ].

Lemma routeAudio_silent env m :
  emits (λ e, is_notification e = false) (routeAudio env m).
Proof. unfold routeAudio, audioDataOf, enqueue, interrupt. repeat emits_step. Qed.

(** C8 (amended).  Every message ends its transcript part with exactly one
    call of [onTranscriptionUpdate].  The array handed over is a new array
    that lists every entry of the log, in log order, and what it reads at
    the moment of the call is the log with the whole transcript part of
    the message applied (its delta and its turn boundary).  The array
    itself is never changed afterwards, but its elements are the
    Transcription objects the aggregator keeps working on: whatever
    happens later in the session, an entry that was final when it was
    handed over reads the same for ever, and an entry that was still open
    keeps its id and sender while its text can only grow at the end and
    its [isFinal] can only turn true. *)
Theorem snapshot_shares_entries (s : Refs) (env : MessageEnv)
    (m : LiveServerMessage) (later : list Event) :
  TranscriptInv (transcript s) →
  let updated := turn env m (transcript s) in
  let snapshot := transcriptionsRef updated in
  (∃ rest, effects_of (onmessage env m s) =
             onTranscriptionUpdate snapshot (log updated) :: rest ∧
           Forall (λ e, is_notification e = false) rest) ∧
  transcript (state_of (onmessage env m s)) = updated ∧
  (∀ o, o ∈ snapshot → is_Some (objects updated !! o)) ∧
  (∀ o e, o ∈ snapshot → objects updated !! o = Some e →
     ∃ e', objects (transcript (run later (state_of (onmessage env m s))).1) !! o
             = Some e' ∧ extends e e').
Proof.
  intros Hinv updated snapshot.
  assert (Hnow : transcript (state_of (onmessage env m s)) = updated)
    by apply onmessage_transcript.
  destruct (turn_inv env m _ Hinv) as [Hinv' _]. fold updated in Hinv'.
  split.
  { subst snapshot updated. rewrite onmessage_unfold. cbv zeta.
    eexists. split; [reflexivity|]. apply routeAudio_silent. }
  split; [done|].
  split; [intros o; apply (inv_alloc updated Hinv')|].
  intros o e Hin He.
  assert (Hinv'' : TranscriptInv (transcript (state_of (onmessage env m s))))
    by (by rewrite Hnow).
  destruct (run_inv later (state_of (onmessage env m s)) Hinv'') as [_ [_ Hev]].
  rewrite Hnow in Hev. apply Hev; [|done]. by apply (inv_bound updated Hinv').
Qed.

(** A snapshot holding one finished entry still reads the same after the
    next turn has begun. *)
Lemma snapshot_shares_entries_witness :
  let s := (run (messages [ (at_time 0 None, user_says "hello") ])
                live_session).1 in
  TranscriptInv (transcript s) ∧
  (∃ rest, effects_of (onmessage (at_time 0 None) turn_complete s) =
     onTranscriptionUpdate [0%nat]
       [Some {| id := "k3x9q2a"; sender := user; text := "hello";
                isFinal := true |}] :: rest) ∧
  ∃ e', objects (transcript
          (run [transport_message (at_time 0 None) (user_says "again")]
               (state_of (onmessage (at_time 0 None) turn_complete s))).1)
          !! 0%nat = Some e' ∧
        extends {| id := "k3x9q2a"; sender := user; text := "hello";
                   isFinal := true |} e'.
Proof.
  intros s.
  assert (Hinv : TranscriptInv (transcript s)).
  { apply run_inv. apply (run_inv _ initial), initial_inv. }
  split; [exact Hinv|].
  destruct (snapshot_shares_entries s (at_time 0 None) turn_complete
              [transport_message (at_time 0 None) (user_says "again")] Hinv)
    as ((rest & He & _) & _ & _ & H).
  split; [exists rest; exact He|].
  apply (H 0%nat); [apply list_elem_of_here | reflexivity].
Defined.

(** The snapshot delivered after "hel" reads "hello" once "lo" has
    arrived. *)
Lemma delivered_snapshot_changes :
  let r1 := onmessage (at_time 0 None) (user_says "hel") live_session in
  let r2 := onmessage (at_time 0 None) (user_says "lo") (state_of r1) in
  effects_of r1 =
    [onTranscriptionUpdate [0%nat]
       [Some {| id := "k3x9q2a"; sender := user; text := "hel";
                isFinal := false |}]] ∧
  deref (objects (transcript (state_of r2))) [0%nat] =
    [Some {| id := "k3x9q2a"; sender := user; text := "hello"; isFinal := false |}] ∧
  ¬ (∀ s env m env' m' snapshot contents,
       TranscriptInv (transcript s) →
       onTranscriptionUpdate snapshot contents ∈ effects_of (onmessage env m s) →
       deref (objects (transcript
                (state_of (onmessage env' m' (state_of (onmessage env m s))))))
             snapshot = contents).
Proof.
  split; [reflexivity|]. split; [reflexivity|].
  intros H.
  specialize (H live_session (at_time 0 None) (user_says "hel")
                (at_time 0 None) (user_says "lo") [0%nat]
                [Some {| id := "k3x9q2a"; sender := user; text := "hel";
                         isFinal := false |}]).
  assert (Hinv : TranscriptInv (transcript live_session))
    by apply (run_inv _ initial), initial_inv.
  specialize (H Hinv (list_elem_of_here _ _)).
  discriminate H.
Qed.

(** ** Camera switch *)

(** C10.  Without a media stream [switchCamera] returns at once: no call
    is made and no ref or flag changes. *)
Theorem switchCamera_without_stream (s : Refs) (newDeviceId : string)
    (acquired : option MediaStream) :
  mediaStreamRef (capture s) = None →
  switchCamera newDeviceId acquired s = (returned tt, s, []).
Proof. intros Hnone. unfold switchCamera. by rewrite bind_get, Hnone. Qed.

(** Before any session, and again once a session has been stopped. *)
Lemma switchCamera_without_stream_witness :
  mediaStreamRef (capture initial) = None ∧
  switchCamera "cam2" (Some camera) initial = (returned tt, initial, []) ∧
  let stopped_session := state_of (stopSession live_session) in
  mediaStreamRef (capture stopped_session) = None ∧
  switchCamera "cam2" (Some camera) stopped_session =
    (returned tt, stopped_session, []).
Proof.
  split; [reflexivity|]. split.
  - apply (switchCamera_without_stream initial "cam2" (Some camera)). reflexivity.
  - intros stopped_session. split; [reflexivity|].
    apply (switchCamera_without_stream stopped_session "cam2" (Some camera)).
    reflexivity.
Defined.

(** C3 (amended).  With a media stream whose first video track is
    [oldTrack], [switchCamera] first calls [oldTrack.stop()] and only then
    asks for the new device.  If the request fails the call ends with that
    failure; the old track has been stopped and is still in the stream, and
    nothing else has changed.  If it succeeds the old track is taken out of
    the stream, the new device's first video track is added, and the
    stream is handed to the video element (when the hook holds one, as it
    does after [startSession]) and to [localStream]: the calls are
    [oldTrack.stop()], [getUserMedia] and the assignment of [srcObject],
    in this order. *)
Theorem switchCamera_swaps (s : Refs) (newDeviceId : string)
    (acquired : option MediaStream) (stream : MediaStream)
    (oldTrack : MediaStreamTrack) (others : list MediaStreamTrack) :
  mediaStreamRef (capture s) = Some stream →
  getVideoTracks stream = oldTrack :: others →
  let stopped_stream := stopTrack (trackId oldTrack) stream in
  (∃ rest, effects_of (switchCamera newDeviceId acquired s) =
             trackStop (trackId oldTrack) :: getUserMedia (Some newDeviceId) :: rest) ∧
  (acquired = None →
     switchCamera newDeviceId acquired s =
       (thrown DeviceAcquisitionFailure,
        with_capture (set_mediaStreamRef (Some stopped_stream)) s,
        [trackStop (trackId oldTrack); getUserMedia (Some newDeviceId)])) ∧
  (∀ newStream newTrack more,
     acquired = Some newStream → getVideoTracks newStream = newTrack :: more →
     switchCamera newDeviceId acquired s =
       (returned tt,
        with_session (set_localStream (Some (streamId stream)))
          (with_capture
             (set_mediaStreamRef
                (Some (addTrack newTrack
                         (removeTrack (trackId oldTrack) stopped_stream)))) s),
        [trackStop (trackId oldTrack); getUserMedia (Some newDeviceId)]
        ++ match videoElementRef (capture s) with
           | Some element => [setSrcObject element (streamId stream)]
           | None => []
           end)).
Proof.
  intros Hs Hv stopped_stream.
  unfold switchCamera. rewrite bind_get, Hs, Hv.
  rewrite bind_call, bind_modify, bind_call.
  destruct acquired as [newStream|].
  - split; [eexists; reflexivity|]. split; [done|].
    intros ? newTrack more [= <-] Hnew. cbv zeta.
    rewrite bind_modify, Hnew, bind_modify.
    destruct (videoElementRef (capture s)) as [el|].
    + rewrite bind_call. reflexivity.
    + rewrite bind_ret. reflexivity.
  - split; [eexists; reflexivity|]. split; [done|]. intros; discriminate.
Qed.

(** In a running session: the request for the back camera fails, or it
    succeeds and the stream goes to the video element. *)
Lemma switchCamera_swaps_witness :
  let back := {| streamId := 9;
                 tracks := [ {| trackId := 12; kind := video; readyState := live |} ] |} in
  mediaStreamRef (capture live_session) = Some camera ∧
  switchCamera "cam2" None live_session =
    (thrown DeviceAcquisitionFailure,
     with_capture (set_mediaStreamRef (Some (stopTrack 11 camera))) live_session,
     [trackStop 11; getUserMedia (Some "cam2")]) ∧
  effects_of (switchCamera "cam2" (Some back) live_session) =
    [trackStop 11; getUserMedia (Some "cam2"); setSrcObject 2 1].
Proof.
  intros back. split; [reflexivity|]. split.
  - refine (proj1 (proj2 (switchCamera_swaps live_session "cam2" None camera
              {| trackId := 11; kind := video; readyState := live |} []
              eq_refl eq_refl)) eq_refl).
  - rewrite (proj2 (proj2 (switchCamera_swaps live_session "cam2" (Some back)
               camera {| trackId := 11; kind := video; readyState := live |} []
               eq_refl eq_refl))
               back {| trackId := 12; kind := video; readyState := live |} []
               eq_refl eq_refl).
    reflexivity.
Defined.

(** The new camera cannot be opened: the old track has been stopped before
    the request was made, and stays stopped. *)
Lemma switchCamera_failure_stops_old_track :
  let r := switchCamera "cam2" None live_session in
  getVideoTracks <$> mediaStreamRef (capture live_session) =
    Some [ {| trackId := 11; kind := video; readyState := live |} ] ∧
  outcome_of r = thrown DeviceAcquisitionFailure ∧
  effects_of r = [trackStop 11; getUserMedia (Some "cam2")] ∧
  getVideoTracks <$> mediaStreamRef (capture (state_of r)) =
    Some [ {| trackId := 11; kind := video; readyState := ended |} ] ∧
  ¬ (∀ s newDeviceId,
       is_Some (mediaStreamRef (capture s)) →
       state_of (switchCamera newDeviceId None s) = s ∧
       effects_of (switchCamera newDeviceId None s) =
         [getUserMedia (Some newDeviceId)]).
Proof.
  repeat (split; [reflexivity|]). intros H.
  destruct (H live_session "cam2") as [_ Habs]; [by eexists|].
  discriminate Habs.
Qed.

(** ** Teardown *)

Lemma cleanup_run s : cleanup s = (returned tt, torn_down s, releases s).
Proof.
  destruct s as [t [oc og ns src sc] [ms ic sp ve ce fi] [pr cg cd ls]].
  destruct fi as [[|timer]|], sp as [node|], ms as [stream|],
    ic as [[irate []]|], oc as [[orate []]|];
    unfold cleanup, closeContext, releases, torn_down, open_context,
      bind, get, modify, call, calls, ret, when; simpl;
    rewrite ?app_nil_r; reflexivity.
Qed.

Lemma torn_down_idemp s : torn_down (torn_down s) = torn_down s.
Proof.
  unfold torn_down. simpl. repeat f_equal.
  destruct (frameIntervalRef (capture s)) as [timer|]; [|done].
  destruct (truthy_number timer) eqn:Ht; [done|]. by rewrite Ht.
Qed.

Lemma releases_torn_down s : releases (torn_down s) = [].
Proof.
  unfold releases, torn_down. simpl.
  destruct (frameIntervalRef (capture s)) as [timer|]; [|done].
  destruct (truthy_number timer) eqn:Ht; [done|]. by rewrite Ht.
Qed.

Lemma fire_run t s :
  state_of (fire t s) = torn_down s ∧ outcome_of (fire t s) = returned tt.
Proof.
  destruct t; unfold fire, stopSession, onerror, onclose.
  - rewrite bind_assoc, bind_get.
    destruct (sessionPromiseRef (session s)) as [[sn|]|].
    + unfold closeSession, bind, try_catch, call. rewrite cleanup_run. done.
    + unfold closeSession, bind, try_catch, call, throw. rewrite cleanup_run. done.
    + unfold closeSession. rewrite bind_ret, cleanup_run. done.
  - rewrite bind_call, cleanup_run. done.
  - rewrite cleanup_run. done.
Qed.

Lemma fire_torn_down t s :
  outcome_of (fire t (torn_down s)) = returned tt ∧
  state_of (fire t (torn_down s)) = torn_down s ∧
  List.filter is_release (effects_of (fire t (torn_down s))) = [] ∧
  (t ≠ transportError → effects_of (fire t (torn_down s)) = []).
Proof.
  destruct (fire_run t (torn_down s)) as [Hs Ho]. rewrite torn_down_idemp in Hs.
  split; [done|]. split; [done|].
  destruct t; unfold fire, stopSession, onerror, onclose.
  - rewrite bind_assoc, bind_get. cbn [session torn_down sessionPromiseRef].
    unfold closeSession. rewrite bind_ret, cleanup_run, releases_torn_down. done.
  - rewrite bind_call, cleanup_run, releases_torn_down. done.
  - rewrite cleanup_run, releases_torn_down. done.
Qed.

Lemma fire_all_torn_down ts s :
  outcome_of (fire_all ts (torn_down s)) = returned tt ∧
  state_of (fire_all ts (torn_down s)) = torn_down s ∧
  List.filter is_release (effects_of (fire_all ts (torn_down s))) = [].
Proof.
  induction ts as [|t ts IH]; [done|].
  destruct (fire_torn_down t s) as (Ho & Hs & He & _).
  destruct IH as (IHo & IHs & IHe).
  cbn [fire_all].
  rewrite (outcome_bind _ _ _ _ Ho), (state_bind _ _ _ _ Ho),
    (effects_bind _ _ _ _ Ho), Hs.
  split; [done|]. split; [done|].
  by rewrite List.filter_app, He, IHe.
Qed.

(** C7.  Whatever the state and whichever trigger runs first ([stopSession],
    [onerror] or [onclose]), one pass leaves the refs torn down: every
    resource ref is null, the live set is empty and the flags are false.
    Any further triggers, in any number and order, return normally, leave
    the refs as they are and make no release call ([clearInterval],
    [source.stop], [disconnect], [track.stop], [context.close],
    [session.close]); a second [stopSession] makes no call at all.  Even a
    [stopSession] that had read the session promise before that pass and
    resumes after it releases nothing in its [cleanup]: it only closes the
    session it had read. *)
Theorem teardown_once (s : Refs) (first : Trigger) (more : list Trigger) :
  let idle := state_of (fire first s) in
  idle = torn_down s ∧
  outcome_of (fire_all more idle) = returned tt ∧
  state_of (fire_all more idle) = idle ∧
  List.filter is_release (effects_of (fire_all more idle)) = [] ∧
  stopSession idle = (returned tt, idle, []) ∧
  List.filter is_release (effects_of (fire first s)) =
    List.filter is_release
      (match first, sessionPromiseRef (session s) with
       | stop, Some (resolves sn) => [sessionClose sn]
       | _, _ => []
       end ++ releases s) ∧
  (∀ captured,
     state_of ((closeSession captured ;; cleanup) idle) = idle ∧
     List.filter is_release (effects_of ((closeSession captured ;; cleanup) idle)) =
       match captured with
       | Some (resolves sn) => [sessionClose sn]
       | _ => []
       end).
Proof.
  intros idle. destruct (fire_run first s) as [Hidle _].
  subst idle. rewrite Hidle.
  destruct (fire_all_torn_down more s) as (Ho & Hs & He).
  split; [done|]. split; [done|]. split; [done|]. split; [done|].
  split; [|split].
  - destruct (fire_torn_down stop s) as (Ho' & Hs' & _ & He').
    rewrite (run_eta (stopSession (torn_down s))).
    change (stopSession (torn_down s)) with (fire stop (torn_down s)).
    rewrite Ho', Hs', He' by done. done.
  - destruct first; unfold fire, stopSession, onerror, onclose.
    + rewrite bind_assoc, bind_get.
      destruct (sessionPromiseRef (session s)) as [[sn|]|].
      * unfold closeSession, bind, try_catch, call. rewrite cleanup_run. done.
      * unfold closeSession, bind, try_catch, call, throw.
        rewrite cleanup_run. done.
      * unfold closeSession. rewrite bind_ret, cleanup_run. done.
    + rewrite bind_call, cleanup_run. done.
    + rewrite cleanup_run. done.
  - intros [[sn|]|]; unfold closeSession, bind, try_catch, call, throw, ret;
      rewrite cleanup_run, torn_down_idemp, releases_torn_down; done.
Qed.

(** ** Starting a session *)

Lemma try_catch_returned {A} (m : M A) h s a s1 t1 :
  m s = (returned a, s1, t1) → try_catch m h s = (returned a, s1, t1).
Proof. intros Hm. unfold try_catch. by rewrite Hm. Qed.

Lemma try_catch_thrown {A} (m : M A) h s e s1 t1 :
  m s = (thrown e, s1, t1) →
  try_catch m h s =
    (outcome_of (h e s1), state_of (h e s1), t1 ++ effects_of (h e s1)).
Proof.
  intros Hm. unfold try_catch. rewrite Hm.
  by destruct (h e s1) as [[r s2] t2].
Qed.

Lemma startSessionOf_busy c g deviceId env s :
  c || g = true → startSessionOf c g deviceId env s = (returned tt, s, []).
Proof. intros Hb. unfold startSessionOf. by rewrite Hb. Qed.

Lemma startSessionOf_run deviceId env s :
  startSessionOf false false deviceId env s =
    match acquiredStream env with
    | Some stream =>
        (returned tt, acquired_refs env stream (connecting s),
         [onTranscriptionUpdate [] []; getUserMedia (exactDevice deviceId);
          setSrcObject (videoElement env) (streamId stream)])
    | None =>
        (returned tt, torn_down (connecting s),
         [onTranscriptionUpdate [] []; getUserMedia (exactDevice deviceId);
          consoleError "Failed to start session:"] ++ releases s)
    end.
Proof.
  unfold startSessionOf. cbn [orb].
  rewrite !bind_modify, bind_call, bind_modify.
  destruct (acquiredStream env) as [stream|].
  - erewrite try_catch_returned by (rewrite !bind_call; reflexivity).
    reflexivity.
  - erewrite try_catch_thrown by reflexivity.
    rewrite bind_call, cleanup_run. reflexivity.
Qed.

Lemma startSession_busy deviceId env s :
  isConnected (session s) || isConnecting (session s) = true →
  startSession deviceId env s = (returned tt, s, []).
Proof.
  intros Hb. unfold startSession. rewrite bind_get.
  by apply startSessionOf_busy.
Qed.

Lemma startSession_run deviceId env s :
  is_idle s →
  startSession deviceId env s =
    match acquiredStream env with
    | Some stream =>
        (returned tt, acquired_refs env stream (connecting s),
         [onTranscriptionUpdate [] []; getUserMedia (exactDevice deviceId);
          setSrcObject (videoElement env) (streamId stream)])
    | None =>
        (returned tt, torn_down (connecting s),
         [onTranscriptionUpdate [] []; getUserMedia (exactDevice deviceId);
          consoleError "Failed to start session:"] ++ releases s)
    end.
Proof.
  intros [Hc Hg]. unfold startSession. rewrite bind_get, Hc, Hg.
  apply startSessionOf_run.
Qed.

(** ** Decode failures *)

Lemma onmessage_without_audio env m s :
  interrupted m = false →
  onmessage env (without_audio m) s =
    (returned tt, with_transcript (turn env m) s,
     [onTranscriptionUpdate (transcriptionsRef (turn env m (transcript s)))
                            (log (turn env m (transcript s)))]).
Proof.
  intros Hi. rewrite onmessage_unfold. cbv zeta.
  unfold routeAudio, audioDataOf. simpl. rewrite Hi. done.
Qed.

Lemma max_clamped (c now now2 : Z) :
  now ≤ now2 → Z.max (Z.max c now) now2 = Z.max c now2.
Proof. lia. Qed.

(** The calls of a teardown trigger. *)
Lemma fire_calls t s :
  effects_of (fire t s) =
    match t, sessionPromiseRef (session s) with
    | stop, Some (resolves sn) => [sessionClose sn]
    | stop, Some rejects => [consoleError "Error closing session:"]
    | stop, None => []
    | transportError, _ => [consoleError "Session error:"]
    | transportClose, _ => []
    end ++ releases s.
Proof.
  destruct t; unfold fire, stopSession, onerror, onclose.
  - rewrite bind_assoc, bind_get.
    destruct (sessionPromiseRef (session s)) as [[sn|]|].
    + unfold closeSession, bind, try_catch, call. rewrite cleanup_run. done.
    + unfold closeSession, bind, try_catch, call, throw. rewrite cleanup_run. done.
    + unfold closeSession. rewrite bind_ret, cleanup_run. done.
  - rewrite bind_call, cleanup_run. done.
  - rewrite cleanup_run. done.
Qed.

Lemma routeAudio_clamped env m now s :
  now ≤ currentTime env →
  outcome_of (routeAudio env m (clamped now s)) = outcome_of (routeAudio env m s) ∧
  effects_of (routeAudio env m (clamped now s)) = effects_of (routeAudio env m s) ∧
  same_but_clamped now (state_of (routeAudio env m s))
    (state_of (routeAudio env m (clamped now s))).
Proof.
  intros Hnow.
  destruct m as [it ot tc intr [[[[|[[[|c data]|]] ps]|]]|]],
    env as [now2 gid [d|]], s as [tr [[ctx|] [g|] ns src sc] cap ses], intr;
    cbn in *; unfold same_but_clamped, clamped, state_of, outcome_of, effects_of;
    cbn; unfold with_playback, schedule, set_nextStartTimeRef, set_audioSourcesRef;
    cbn; rewrite ?(max_clamped _ _ _ Hnow);
    (split; [reflexivity|]); (split; [reflexivity|]);
    first [by left | by right].
Qed.

(** Apart from line 212 nothing reads the playback clock: handling an event
    makes the same calls and ends the same way whether or not the clock
    has been raised to [now], provided the context clock has not gone back
    behind [now]. *)
Lemma handle_clamped e now s :
  not_before now e →
  outcome_of (handle e (clamped now s)) = outcome_of (handle e s) ∧
  effects_of (handle e (clamped now s)) = effects_of (handle e s) ∧
  same_but_clamped now (state_of (handle e s))
    (state_of (handle e (clamped now s))).
Proof.
  intros Hnow. destruct e as [d env|env|env m|h|t|d acq]; unfold handle.
  - destruct (isConnected (session s) || isConnecting (session s)) eqn:Hb.
    + rewrite !startSession_busy by exact Hb. split; [done|]. split; [done|].
      by right.
    + apply orb_false_elim in Hb as [Hc Hg].
      rewrite !startSession_run by (by split).
      destruct (acquiredStream env) as [stream|].
      * split; [done|]. split; [done|]. by right.
      * split; [done|]. split; [done|]. by left.
  - destruct env as [c2d iid pn],
      s as [tr pb [[ms|] [ic|] sp [ve|] [ce|] fi] ses], c2d;
      (split; [reflexivity|]); (split; [reflexivity|]); by right.
  - rewrite !onmessage_unfold. cbv zeta.
    change (with_transcript (turn env m) (clamped now s))
      with (clamped now (with_transcript (turn env m) s)).
    destruct (routeAudio_clamped env m now (with_transcript (turn env m) s) Hnow)
      as (Ho & He & Hs).
    unfold outcome_of at 1 3, effects_of at 1 3, state_of at 1 3. cbn [fst snd].
    split; [exact Ho|]. split; [by rewrite He|exact Hs].
  - split; [done|]. split; [done|]. by right.
  - destruct (fire_run t s) as [Hs Ho].
    destruct (fire_run t (clamped now s)) as [Hs' Ho'].
    rewrite Ho, Ho', Hs, Hs', !fire_calls. split; [done|]. split; [done|].
    by left.
  - unfold switchCamera. rewrite !bind_get.
    change (capture (clamped now s)) with (capture s).
    destruct (mediaStreamRef (capture s)) as [stream|];
      [|split; [done|]; split; [done|]; by right].
    destruct (getVideoTracks stream) as [|oldTrack others];
      [split; [done|]; split; [done|]; by right|].
    rewrite !bind_call, !bind_modify, !bind_call.
    destruct acq as [newStream|];
      [|split; [done|]; split; [done|]; by right].
    cbv zeta. rewrite !bind_modify.
    destruct (getVideoTracks newStream) as [|newTrack more];
      [split; [done|]; split; [done|]; by right|].
    rewrite !bind_modify.
    destruct (videoElementRef (capture s)) as [el|];
      [rewrite !bind_call | rewrite !bind_ret];
      (split; [done|]); (split; [done|]); by right.
Qed.

Lemma run_clamped later now s s' :
  clock_not_back now later → same_but_clamped now s s' →
  (run later s').2 = (run later s).2 ∧
  same_but_clamped now (run later s).1 (run later s').1.
Proof.
  revert s s'. induction later as [|e later IH]; intros s s' Hlater Hs.
  - split; [done|exact Hs].
  - destruct Hs as [-> | ->]; [split; [done|by left]|].
    cbn [run fst snd].
    assert (Hcases : (∃ t, e = teardown t) ∨
                     (not_before now e ∧ clock_not_back now later)).
    { destruct e; simpl in Hlater; eauto. }
    destruct Hcases as [[t ->] | [He Hrest]].
    + cbn [handle].
      assert (Hst : state_of (fire t (clamped now s)) = state_of (fire t s)).
      { by rewrite !(proj1 (fire_run t _)). }
      rewrite Hst, !fire_calls. split; [done|by left].
    + destruct (handle_clamped e now s He) as (_ & H2 & H3).
      destruct (IH _ _ Hrest H3) as [IH1 IH2].
      split; [by rewrite H2, IH1 | exact IH2].
Qed.

(** C9 (amended).  When the audio chunk of a message fails to decode,
    [onmessage] ends with the decode error after the observer has been
    notified: no source is created or started and the live set is
    unchanged.  [nextStartTimeRef] has by then been raised to
    [max(nextStartTimeRef, currentTime)] (line 212 runs before the decode)
    and is not advanced by any duration.  If the message does not also
    carry [interrupted: true], the hook goes on exactly as if the chunk
    had not been part of the message: whatever events follow, with
    messages handled at context times that are not earlier as long as the
    session lasts, every call is the same (so every later chunk is
    decoded, and started at the same time), and the refs differ at most in
    the clock, which may still stand raised; a later message with a chunk
    leaves them equal. *)
Theorem decode_failure_drops (s : Refs) (env : MessageEnv) (m : LiveServerMessage)
    (data : string) :
  output_ready s → carries_audio m data → decodeAudioData env = None →
  let failed := onmessage env m s in
  let absent := onmessage env (without_audio m) s in
  failed =
    (thrown DecodeFailure,
     clamped (currentTime env) (with_transcript (turn env m) s),
     [onTranscriptionUpdate (transcriptionsRef (turn env m (transcript s)))
                            (log (turn env m (transcript s)));
      decode data]) ∧
  audioSourcesRef (playback (state_of failed)) = audioSourcesRef (playback s) ∧
  sourcesCreated (playback (state_of failed)) = sourcesCreated (playback s) ∧
  (interrupted m = false →
     state_of failed = clamped (currentTime env) (state_of absent) ∧
     (∀ later, clock_not_back (currentTime env) later →
        (run later (state_of failed)).2 = (run later (state_of absent)).2 ∧
        same_but_clamped (currentTime env)
          (run later (state_of absent)).1 (run later (state_of failed)).1) ∧
     (∀ env2 m2 data2,
        carries_audio m2 data2 → currentTime env ≤ currentTime env2 →
        onmessage env2 m2 (state_of failed) =
        onmessage env2 m2 (state_of absent))).
Proof.
  intros Hr Hm Hd failed absent.
  assert (Hrun : failed =
    (thrown DecodeFailure,
     clamped (currentTime env) (with_transcript (turn env m) s),
     [onTranscriptionUpdate (transcriptionsRef (turn env m (transcript s)))
                            (log (turn env m (transcript s)));
      decode data])).
  { subst failed. rewrite onmessage_unfold. cbv zeta.
    assert (Hr' : output_ready (with_transcript (turn env m) s)) by exact Hr.
    by rewrite (routeAudio_dropped env m data) by done. }
  split; [exact Hrun|]. split; [by rewrite Hrun|]. split; [by rewrite Hrun|].
  intros Hi. subst absent. rewrite (onmessage_without_audio env m s Hi), Hrun.
  unfold state_of at 1 2 3 4 5 6. cbn [fst snd].
  set (s1 := with_transcript (turn env m) s).
  split; [done|]. split.
  - intros later Hlater. apply run_clamped; [exact Hlater | by right].
  - intros env2 m2 data2 Hm2 Hnow.
    rewrite !onmessage_unfold. cbv zeta.
    assert (Hr1 : output_ready s1) by exact Hr.
    assert (Hr2 : output_ready (clamped (currentTime env) s1)) by exact Hr.
    destruct (decodeAudioData env2) as [d2|] eqn:Hd2.
    + rewrite !(routeAudio_scheduled env2 m2 data2 d2) by done.
      unfold outcome_of, state_of, effects_of, enqueued, clamped, with_playback,
        with_transcript, schedule, set_nextStartTimeRef. simpl.
      rewrite (max_clamped _ _ _ Hnow). done.
    + rewrite !(routeAudio_dropped env2 m2 data2) by done.
      unfold outcome_of, state_of, effects_of, clamped, with_playback,
        with_transcript, set_nextStartTimeRef. simpl.
      rewrite (max_clamped _ _ _ Hnow). done.
Qed.

(** A chunk fails to decode at frame 100 of a running session; the user's
    next words, a chunk at frame 300 and the end of its source follow,
    then the session is stopped and a new one gets a chunk at frame 20. *)
Lemma decode_failure_drops_witness :
  let failed := onmessage (at_time 100 None) (chunk "????" false) live_session in
  let later := [ transport_message (at_time 200 None) (user_says "hello");
                 transport_message (at_time 300 (Some 480)) (chunk "BBBB" false);
                 source_ended 0%nat;
                 teardown stop;
                 start_session None
                   {| acquiredStream := Some camera; connected := resolves 8;
                      videoElement := 2; canvasElement := 3; gainNode := 4 |};
                 transport_message (at_time 20 (Some 480)) (chunk "CCCC" false) ] in
  output_ready live_session ∧ carries_audio (chunk "????" false) "????" ∧
  outcome_of failed = thrown DecodeFailure ∧
  starts (effects_of failed) = [] ∧
  clock_not_back 100 later ∧
  starts (run later (state_of failed)).2 = [300; 20].
Proof.
  intros failed later.
  assert (Hready : output_ready live_session)
    by (split; eexists; reflexivity).
  assert (Hm : carries_audio (chunk "????" false) "????")
    by (by exists {| inlineData := Some "????" |}, []).
  assert (Hlater : clock_not_back 100 later).
  { simpl. repeat split; lia. }
  split; [exact Hready|]. split; [exact Hm|].
  destruct (decode_failure_drops live_session (at_time 100 None)
              (chunk "????" false) "????" Hready Hm eq_refl)
    as (Hrun & _ & _ & Hgoes_on).
  destruct (Hgoes_on eq_refl) as (_ & Hsame & _).
  split; [subst failed; by rewrite Hrun|].
  split; [subst failed; by rewrite Hrun|].
  split; [exact Hlater|].
  subst failed. rewrite (proj1 (Hsame later Hlater)). reflexivity.
Defined.

(** A chunk that fails to decode at frame 100 leaves [nextStartTimeRef] at
    100; had the message carried no chunk it would still be 0.  And when
    the message of the failed chunk also says [interrupted], the queued
    audio is not flushed: the next chunk waits for it (frame 10000)
    instead of starting at once (frame 400). *)
Lemma decode_failure_moves_clock :
  nextStartTimeRef (playback (state_of
    (onmessage (at_time 100 None) (chunk "????" false) live_session))) = 100 ∧
  nextStartTimeRef (playback (state_of
    (onmessage (at_time 100 None) (without_audio (chunk "????" false))
       live_session))) = 0 ∧
  starts (effects_of
    (onmessage (at_time 400 (Some 480)) (chunk "CCCC" false)
       (state_of (onmessage (at_time 300 None) (chunk "????" true)
                    queued_session)))) = [10000] ∧
  starts (effects_of
    (onmessage (at_time 400 (Some 480)) (chunk "CCCC" false)
       (state_of (onmessage (at_time 300 None) (without_audio (chunk "????" true))
                    queued_session)))) = [400] ∧
  ¬ (∀ s env m data,
       output_ready s → carries_audio m data → decodeAudioData env = None →
       nextStartTimeRef (playback (state_of (onmessage env m s))) =
       nextStartTimeRef (playback (state_of (onmessage env (without_audio m) s)))).
Proof.
  split; [reflexivity|]. split; [reflexivity|].
  split; [reflexivity|]. split; [reflexivity|]. intros H.
  specialize (H live_session (at_time 100 None) (chunk "????" false) "????").
  assert (100 = 0) as Habs; [|discriminate Habs].
  apply H.
  - split; eexists; reflexivity.
  - by exists {| inlineData := Some "????" |}, [].
  - reflexivity.
Qed.

(** * Further properties of the hook *)

(** ** The session flags *)

Lemma onopen_session env s : session (state_of (onopen env s)) = opened (session s).
Proof.
  unfold onopen. rewrite bind_modify.
  match goal with |- session (state_of (?m ?s0)) = _ =>
    assert (Hp : preserves session m)
      by (unfold startVideoFrameStreaming; frame);
    rewrite (Hp s0)
  end.
  reflexivity.
Qed.

Lemma releases_silent s : Forall (λ e, is_notification e = false) (releases s).
Proof.
  unfold releases. repeat (apply Forall_app; split).
  - destruct (frameIntervalRef (capture s)) as [timer|]; [|constructor].
    destruct (truthy_number timer); by repeat constructor.
  - by apply Forall_fmap, Forall_true.
  - destruct (scriptProcessorRef (capture s)); by repeat constructor.
  - destruct (mediaStreamRef (capture s)); [|constructor].
    by apply Forall_fmap, Forall_true.
  - by apply Forall_fmap, Forall_true.
  - by apply Forall_fmap, Forall_true.
Qed.

(** X1.  The guard of [startSession] (line 124) reads the flags of the
    render that created the closure.  A closure created while
    [isConnected] or [isConnecting] was set returns at once, whatever the
    refs hold by then.  After a start that acquired the media stream the
    closure of the next render is such a closure, both while the transport
    is connecting and after [onopen].  The closure that made that start is
    not: called again before the component has rendered again, it passes
    the guard a second time, empties the log and asks for the media
    devices again, and the stream, the contexts and the session promise of
    the first call are overwritten without being released. *)
Theorem start_guard_is_per_render (s : Refs) (deviceId : option string)
    (env : StartEnv) (stream : MediaStream) :
  is_idle s → acquiredStream env = Some stream →
  let s1 := state_of (startSession deviceId env s) in
  (∀ c g deviceId' env' s', c || g = true →
     startSessionOf c g deviceId' env' s' = (returned tt, s', [])) ∧
  (∀ deviceId' env', startSession deviceId' env' s1 = (returned tt, s1, [])) ∧
  (∀ oenv deviceId' env',
     let s2 := state_of (onopen oenv s1) in
     startSession deviceId' env' s2 = (returned tt, s2, [])) ∧
  (∀ deviceId' env' stream', acquiredStream env' = Some stream' →
     startSessionOf false false deviceId' env' s1 =
       (returned tt, acquired_refs env' stream' (connecting s1),
        [onTranscriptionUpdate [] []; getUserMedia (exactDevice deviceId');
         setSrcObject (videoElement env') (streamId stream')])).
Proof.
  intros Hidle Hacq s1.
  assert (Hs1 : s1 = acquired_refs env stream (connecting s)).
  { subst s1. by rewrite (startSession_run _ _ _ Hidle), Hacq. }
  split; [intros c g d' env' s' Hb; by apply startSessionOf_busy|].
  split; [|split].
  - intros d' env'. apply startSession_busy. rewrite Hs1. cbn. apply orb_true_r.
  - intros oenv d' env' s2. apply startSession_busy. subst s2.
    by rewrite onopen_session.
  - intros d' env' stream' Hacq'. by rewrite startSessionOf_run, Hacq'.
Qed.

(** The same closure called twice on the initial refs: the second call
    acquires a second stream and drops the first without stopping its
    tracks. *)
Lemma start_guard_is_per_render_witness :
  let env := {| acquiredStream := Some camera; connected := resolves 7;
                videoElement := 2; canvasElement := 3; gainNode := 4 |} in
  let again := {| acquiredStream :=
                    Some {| streamId := 9;
                            tracks := [ {| trackId := 12; kind := video;
                                           readyState := live |} ] |};
                  connected := resolves 8;
                  videoElement := 12; canvasElement := 13; gainNode := 14 |} in
  let s1 := state_of (startSession None env initial) in
  is_idle initial ∧
  startSession (Some "cam2") env s1 = (returned tt, s1, []) ∧
  effects_of (startSessionOf false false None again s1) =
    [onTranscriptionUpdate [] []; getUserMedia None; setSrcObject 12 9] ∧
  streamId <$> mediaStreamRef (capture s1) = Some 1%nat ∧
  streamId <$> mediaStreamRef
    (capture (state_of (startSessionOf false false None again s1))) = Some 9%nat.
Proof.
  intros env again s1. assert (Hidle : is_idle initial) by (by split).
  destruct (start_guard_is_per_render initial None env camera Hidle eq_refl)
    as (_ & Hnext & _ & Hstale).
  split; [exact Hidle|]. split; [exact (Hnext (Some "cam2") env)|].
  subst s1. rewrite (Hstale None again _ eq_refl).
  split; [reflexivity|]. split; reflexivity.
Defined.

(** X2.  When [getUserMedia] rejects, [startSession] swallows the error:
    it returns normally after logging and running [cleanup], so every
    resource ref is null, the flags are false again and whatever the hook
    still held is released; the log has been emptied.  The request names
    the device only when [deviceId] is a non-empty string. *)
Theorem failed_start_tears_down (s : Refs) (deviceId : option string)
    (env : StartEnv) :
  is_idle s → acquiredStream env = None →
  startSession deviceId env s =
    (returned tt, torn_down (with_transcript resetTranscript s),
     [onTranscriptionUpdate [] []; getUserMedia (exactDevice deviceId);
      consoleError "Failed to start session:"] ++ releases s) ∧
  is_idle (state_of (startSession deviceId env s)) ∧
  (deviceId = None ∨ deviceId = Some "" → exactDevice deviceId = None) ∧
  (∀ d, deviceId = Some d → d ≠ "" → exactDevice deviceId = Some d).
Proof.
  intros Hidle Hacq. rewrite (startSession_run _ _ _ Hidle), Hacq.
  split; [reflexivity|]. split; [by split|]. split.
  - by intros [-> | ->].
  - intros d -> Hd. unfold exactDevice, truthy_string.
    destruct (String.eqb_spec d ""); [done|reflexivity].
Qed.

(** An empty device id is sent as no constraint at all. *)
Lemma failed_start_tears_down_witness :
  let env := {| acquiredStream := None; connected := rejects;
                videoElement := 2; canvasElement := 3; gainNode := 4 |} in
  is_idle initial ∧
  startSession (Some "") env initial =
    (returned tt, initial,
     [onTranscriptionUpdate [] []; getUserMedia None;
      consoleError "Failed to start session:"]).
Proof.
  intros env. assert (Hidle : is_idle initial) by (by split).
  split; [exact Hidle|].
  exact (proj1 (failed_start_tears_down initial (Some "") env Hidle eq_refl)).
Defined.

(** X3.  A [startSession] that passes its guard empties the log and both
    "current" refs and reports the empty array to the observer before it
    asks for the media devices, whether or not they can be acquired.  The
    Transcription objects of the previous session are not touched, so the
    arrays handed out earlier still read the same. *)
Theorem start_resets_log (s : Refs) (deviceId : option string) (env : StartEnv) :
  is_idle s →
  let s1 := state_of (startSession deviceId env s) in
  transcript s1 = resetTranscript (transcript s) ∧
  log (transcript s1) = [] ∧
  (∀ who, current who (transcript s1) = None) ∧
  (∀ snapshot, deref (objects (transcript s1)) snapshot =
               deref (objects (transcript s)) snapshot) ∧
  ∃ rest, effects_of (startSession deviceId env s) =
            onTranscriptionUpdate [] []
              :: getUserMedia (exactDevice deviceId) :: rest ∧
          Forall (λ e, is_notification e = false) rest.
Proof.
  intros Hidle s1. subst s1. rewrite (startSession_run _ _ _ Hidle).
  destruct (acquiredStream env) as [stream|];
    (split; [reflexivity|]); (split; [reflexivity|]);
    (split; [by intros []|]); (split; [reflexivity|]);
    eexists; (split; [reflexivity|]).
  - by repeat constructor.
  - constructor; [done|]. apply releases_silent.
Qed.

(** A second session after a first one that left one finished entry. *)
Lemma start_resets_log_witness :
  let first := (run [ transport_message (at_time 0 None) (user_says "hello");
                      transport_message (at_time 0 None) turn_complete;
                      teardown stop ] live_session).1 in
  let env := {| acquiredStream := Some camera; connected := resolves 8;
                videoElement := 2; canvasElement := 3; gainNode := 4 |} in
  is_idle first ∧
  log (transcript first) =
    [Some {| id := "k3x9q2a"; sender := user; text := "hello"; isFinal := true |}] ∧
  log (transcript (state_of (startSession None env first))) = [].
Proof.
  intros first env. assert (Hidle : is_idle first) by (by split).
  split; [exact Hidle|]. split; [reflexivity|].
  exact (proj1 (proj2 (start_resets_log first None env Hidle))).
Defined.

(** ** The live set *)

Section maintained.
Context (I : Refs → Prop).

Lemma maintains_ret {A} (a : A) : maintains I (ret a).
Proof. by intros s. Qed.

Lemma maintains_throw {A} e : maintains I (@throw A e).
Proof. by intros s. Qed.

Lemma maintains_get : maintains I get.
Proof. by intros s. Qed.

Lemma maintains_call e : maintains I (call e).
Proof. by intros s. Qed.

Lemma maintains_calls es : maintains I (calls es).
Proof. by intros s. Qed.

Lemma maintains_modify f : (∀ s, I s → I (f s)) → maintains I (modify f).
Proof. intros Hf s. apply Hf. Qed.

Lemma maintains_when b m : maintains I m → maintains I (when b m).
Proof. destruct b; [done|]. intros _. apply maintains_ret. Qed.

Lemma maintains_bind {A B} (m : M A) (k : A → M B) :
  maintains I m → (∀ a, maintains I (k a)) → maintains I (bind m k).
Proof.
  intros Hm Hk s Hs. specialize (Hm s Hs). unfold bind, state_of in *.
  destruct (m s) as [[[a|e] s1] t1]; simpl in *; [|done].
  specialize (Hk a s1 Hm). unfold state_of in Hk.
  by destruct (k a s1) as [[r s2] t2].
Qed.

Lemma maintains_try_catch {A} (m : M A) (h : Exn → M A) :
  maintains I m → (∀ e, maintains I (h e)) → maintains I (try_catch m h).
Proof.
  intros Hm Hh s Hs. specialize (Hm s Hs). unfold try_catch, state_of in *.
  destruct (m s) as [[[a|e] s1] t1]; simpl in *; [done|].
  specialize (Hh e s1 Hm). unfold state_of in Hh.
  by destruct (h e s1) as [[r s2] t2].
Qed.
End maintained.

Lemma live_add (c : nat) (l : list nat) :
  NoDup l → (∀ h, h ∈ l → (h < c)%nat) →
  NoDup (set_add c l) ∧ ∀ h, h ∈ set_add c l → (h < S c)%nat.
Proof.
  intros Hnd Hb. unfold set_add.
  destruct (decide (c ∈ l)) as [Hin|Hnin].
  - specialize (Hb _ Hin). exfalso. lia.
  - split.
    + apply NoDup_app. split; [done|]. split; [|apply NoDup_singleton].
      intros x Hx Hc. apply list_elem_of_singleton in Hc. by subst x.
    + intros h [Hh| ->%list_elem_of_singleton]%elem_of_app; [|lia].
      specialize (Hb _ Hh). lia.
Qed.

Lemma live_delete (x c : nat) (l : list nat) :
  NoDup l → (∀ h, h ∈ l → (h < c)%nat) →
  NoDup (set_delete x l) ∧ ∀ h, h ∈ set_delete x l → (h < c)%nat.
Proof.
  intros Hnd Hb. unfold set_delete. split.
  - by apply NoDup_filter.
  - intros h [_ Hh]%list_elem_of_filter. by apply Hb.
Qed.

Lemma set_delete_absent (x : nat) (l : list nat) : x ∉ l → set_delete x l = l.
Proof.
  intros Hx. unfold set_delete. induction l as [|y l IH]; [done|].
  rewrite filter_cons. apply not_elem_of_cons in Hx as [Hne Hx].
  rewrite decide_True by done. by rewrite IH.
Qed.

Ltac live_modify :=
  let s := fresh "s" in let Hnd := fresh "Hnd" in let Hb := fresh "Hb" in
  apply maintains_modify; intros s [Hnd Hb]; unfold LiveSetInv; simpl;
  first
    [ by split
    | by apply live_add
    | by apply live_delete
    | split; [apply NoDup_nil_2 | by intros ? ?%elem_of_nil] ].

Ltac live_step :=
  first
    [ apply maintains_ret | apply maintains_throw | apply maintains_get
    | apply maintains_call | apply maintains_calls
    | live_modify
    | apply maintains_when
    | apply maintains_bind; [|intros ?]
    | apply maintains_try_catch; [|intros ?]
    | match goal with
      | |- maintains _ (match ?x with _ => _ end) => destruct x
      end ].

Lemma cleanup_live : maintains LiveSetInv cleanup.
Proof. unfold cleanup, closeContext. repeat live_step. Qed.

Lemma handle_live e : maintains LiveSetInv (handle e).
Proof.
  destruct e as [d env|env|env m|h|[]|d acq]; unfold handle, fire.
  - unfold startSession, startSessionOf.
    repeat first [apply cleanup_live | live_step].
  - unfold onopen, startVideoFrameStreaming. repeat live_step.
  - unfold onmessage, routeAudio, audioDataOf, enqueue, interrupt.
    repeat live_step.
  - unfold onended. repeat live_step.
  - unfold stopSession, closeSession. repeat first [apply cleanup_live | live_step].
  - unfold onerror. repeat first [apply cleanup_live | live_step].
  - apply cleanup_live.
  - unfold switchCamera. repeat live_step.
Qed.

Lemma run_live es s : LiveSetInv s → LiveSetInv (run es s).1.
Proof.
  revert s. induction es as [|e es IH]; intros s Hs; [done|].
  apply IH. by apply handle_live.
Qed.

Lemma reachable_live s : reachable s → LiveSetInv s.
Proof.
  intros [es <-]. apply run_live. split; [apply NoDup_nil_2|].
  by intros h ?%elem_of_nil.
Qed.

Lemma queued_session_reachable : reachable queued_session.
Proof.
  exists ([ start_session None
             {| acquiredStream := Some camera; connected := resolves 7;
                videoElement := 2; canvasElement := 3; gainNode := 4 |};
           transport_open
             {| context2d := true; intervalId := 5; processorNode := 6 |} ]
          ++ messages [ (at_time 100 (Some 4900), chunk "AAAA" false);
                        (at_time 200 (Some 5000), chunk "BBBB" false) ]).
  reflexivity.
Qed.

Lemma onended_absent h s :
  h ∉ audioSourcesRef (playback s) → onended h s = (returned tt, s, []).
Proof.
  intros Hh. unfold onended, modify, with_playback, set_audioSourcesRef.
  rewrite (set_delete_absent _ _ Hh).
  by destruct s as [t [oc og ns src sc] c x].
Qed.

(** X4.  The ['ended'] event of a source that was stopped by an
    interruption or by teardown finds the live set already empty: the
    listener changes nothing and makes no call, whichever source it is
    for. *)
Theorem ended_after_flush (s : Refs) (h : nat) :
  onended h (state_of (interrupt s)) = (returned tt, state_of (interrupt s), []) ∧
  ∀ t, onended h (state_of (fire t s)) = (returned tt, state_of (fire t s), []).
Proof.
  split.
  - apply onended_absent. rewrite interrupt_run. apply not_elem_of_nil.
  - intros t. apply onended_absent.
    rewrite (proj1 (fire_run t s)). apply not_elem_of_nil.
Qed.

(** X5.  In every state the hook can reach, an enqueued chunk joins the
    live set as its last element, under a source identity that was not in
    it; when that source ends, its listener takes it out again and the live
    set is what it was before the chunk. *)
Theorem enqueue_then_ended (s : Refs) (env : MessageEnv) (m : LiveServerMessage)
    (d : Z) :
  reachable s → output_ready s → enqueues d (env, m) →
  let h := sourcesCreated (playback s) in
  let s1 := state_of (onmessage env m s) in
  (h ∉ audioSourcesRef (playback s)) ∧
  audioSourcesRef (playback s1) = audioSourcesRef (playback s) ++ [h] ∧
  audioSourcesRef (playback (state_of (onended h s1))) =
    audioSourcesRef (playback s).
Proof.
  intros [Hnd Hb]%reachable_live Hr Hd h s1.
  assert (Hfresh : h ∉ audioSourcesRef (playback s)).
  { intros Hin. specialize (Hb _ Hin). subst h. lia. }
  assert (Hs1 : audioSourcesRef (playback s1) = audioSourcesRef (playback s) ++ [h]).
  { subst s1. rewrite (proj1 (onmessage_enqueues d env m s Hd Hr)). simpl.
    unfold set_add. by rewrite decide_False. }
  split; [done|]. split; [done|].
  unfold onended, modify, state_of. simpl. rewrite Hs1.
  unfold set_delete. rewrite filter_app, filter_cons, decide_False by tauto.
  rewrite filter_nil, app_nil_r. by apply set_delete_absent.
Qed.

Lemma enqueue_then_ended_witness :
  let env := at_time 20000 (Some 480) in
  let s1 := state_of (onmessage env (chunk "CCCC" false) queued_session) in
  reachable queued_session ∧ output_ready queued_session ∧
  audioSourcesRef (playback s1) = [0; 1; 2]%nat ∧
  audioSourcesRef (playback (state_of (onended 2%nat s1))) = [0; 1]%nat.
Proof.
  intros env s1.
  assert (Hready : output_ready queued_session)
    by (split; eexists; reflexivity).
  assert (Hd : enqueues 480 (env, chunk "CCCC" false)).
  { repeat split. eexists. eexists {| inlineData := Some _ |}, []. done. }
  split; [exact queued_session_reachable|]. split; [exact Hready|].
  exact (proj2 (enqueue_then_ended queued_session env (chunk "CCCC" false) 480
                  queued_session_reachable Hready Hd)).
Defined.

(** ** Runs of messages *)

Lemma run_messages_cons env m ms s :
  run (messages ((env, m) :: ms)) s =
    ((run (messages ms) (state_of (onmessage env m s))).1,
     effects_of (onmessage env m s)
       ++ (run (messages ms) (state_of (onmessage env m s))).2).
Proof. reflexivity. Qed.

(** ** The shape of the log *)

Lemma turn_log env m t :
  transcriptionsRef (turn env m t) = transcriptionsRef t ∨
  transcriptionsRef (turn env m t) = transcriptionsRef t ++ [created t].
Proof.
  assert (Hd : ∀ who newId delta,
    transcriptionsRef (applyDelta who newId delta t) = transcriptionsRef t ∨
    transcriptionsRef (applyDelta who newId delta t) =
      transcriptionsRef t ++ [created t]).
  { intros who newId delta. destruct (current who t) as [o|] eqn:Hc.
    - left. by rewrite (applyDelta_append _ _ _ _ _ Hc).
    - right. by rewrite (applyDelta_open _ _ _ _ Hc). }
  unfold turn, routeTranscription.
  destruct (inputTranscription m) as [txt|];
    [|destruct (outputTranscription m) as [txt|]];
    destruct (turnComplete m); simpl; auto.
Qed.

Lemma turn_nodup env m t :
  TranscriptInv t → NoDup (transcriptionsRef t) →
  NoDup (transcriptionsRef (turn env m t)).
Proof.
  intros Hinv Hnd. destruct (turn_log env m t) as [-> | ->]; [done|].
  apply NoDup_app. split; [done|]. split; [|apply NoDup_singleton].
  intros x Hx Hc. apply list_elem_of_singleton in Hc. subst x.
  by apply (created_fresh t Hinv).
Qed.

Lemma handle_nodup e s :
  TranscriptInv (transcript s) → NoDup (transcriptionsRef (transcript s)) →
  NoDup (transcriptionsRef (transcript (state_of (handle e s)))).
Proof.
  intros Hinv Hnd. destruct e; unfold handle.
  - destruct (startSession_transcript deviceId env s) as [-> | ->];
      [done | apply NoDup_nil_2].
  - by rewrite onopen_transcript.
  - rewrite onmessage_transcript. by apply turn_nodup.
  - by rewrite onended_transcript.
  - by rewrite fire_transcript.
  - by rewrite switchCamera_transcript.
Qed.

Lemma run_nodup es s :
  TranscriptInv (transcript s) → NoDup (transcriptionsRef (transcript s)) →
  NoDup (transcriptionsRef (transcript (run es s).1)).
Proof.
  revert s. induction es as [|e es IH]; intros s Hinv Hnd; [done|].
  apply IH; [by apply handle_inv | by apply handle_nodup].
Qed.

(** X7.  In every state the hook can reach, the log lists each entry once,
    every listed entry exists, and each sender has at most one entry that
    is not final: the one its "current" ref points to. *)
Theorem log_is_well_formed (s : Refs) :
  reachable s →
  NoDup (transcriptionsRef (transcript s)) ∧
  (∀ o, o ∈ transcriptionsRef (transcript s) →
        is_Some (objects (transcript s) !! o)) ∧
  (∀ who o o', open_for who (transcript s) o → open_for who (transcript s) o' →
               o = o') ∧
  (∀ who o, open_for who (transcript s) o ↔ current who (transcript s) = Some o).
Proof.
  intros Hr. pose proof (reachable_inv s Hr) as Hinv.
  destruct Hr as [es <-].
  split; [apply run_nodup; [apply initial_inv | apply NoDup_nil_2]|].
  split; [apply (inv_alloc _ Hinv)|]. split.
  - intros who o o' Ho Ho'.
    apply (inv_open _ Hinv) in Ho. apply (inv_open _ Hinv) in Ho'. congruence.
  - intros who o. split; [apply (inv_open _ Hinv) | apply (inv_current _ Hinv)].
Qed.

Lemma log_is_well_formed_witness :
  let s := (run (messages [ (at_time 0 None, user_says "hel");
                            (at_time 0 None, hi_with_audio);
                            (at_time 0 None, user_says "again") ])
                live_session).1 in
  reachable s ∧
  transcriptionsRef (transcript s) = [0; 1; 2]%nat ∧
  ∀ o o', open_for user (transcript s) o → open_for user (transcript s) o' → o = o'.
Proof.
  intros s.
  assert (Hr : reachable s).
  { exists ([ start_session None
               {| acquiredStream := Some camera; connected := resolves 7;
                  videoElement := 2; canvasElement := 3; gainNode := 4 |};
             transport_open
               {| context2d := true; intervalId := 5; processorNode := 6 |} ]
            ++ messages [ (at_time 0 None, user_says "hel");
                          (at_time 0 None, hi_with_audio);
                          (at_time 0 None, user_says "again") ]).
    reflexivity. }
  split; [exact Hr|]. split; [reflexivity|].
  exact (proj1 (proj2 (proj2 (log_is_well_formed s Hr))) user).
Defined.

Lemma run_messages_log ms s :
  transcriptionsRef (transcript s) `prefix_of`
    transcriptionsRef (transcript (run (messages ms) s).1).
Proof.
  revert s. induction ms as [|[env m] ms IH]; intros s; [done|].
  rewrite run_messages_cons. cbn [fst].
  etrans; [|apply IH]. rewrite onmessage_transcript.
  destruct (turn_log env m (transcript s)) as [-> | ->];
    [done | by apply prefix_app_r].
Qed.

(** X8.  A message never removes or reorders entries of the log: it leaves
    the list of entries as it is or adds one entry at its end, so over any
    run of messages the earlier log is a prefix of the later one. *)
Theorem log_only_grows (s : Refs) (env : MessageEnv) (m : LiveServerMessage)
    (ms : list (MessageEnv * LiveServerMessage)) :
  let before := transcriptionsRef (transcript s) in
  let after := transcriptionsRef (transcript (state_of (onmessage env m s))) in
  (after = before ∨ after = before ++ [created (transcript s)]) ∧
  (inputTranscription m = None → outputTranscription m = None → after = before) ∧
  before `prefix_of` transcriptionsRef (transcript (run (messages ms) s).1).
Proof.
  intros before after. subst before after. rewrite onmessage_transcript.
  split; [apply turn_log|]. split; [|apply run_messages_log].
  intros Hi Ho. unfold turn, routeTranscription. rewrite Hi, Ho.
  by destruct (turnComplete m).
Qed.

(** ** Routing inside one message *)

(** X9.  When a message carries both an [inputTranscription] and an
    [outputTranscription], only the user's text is applied: the message is
    handled exactly as if the [outputTranscription] were absent. *)
Theorem user_delta_shadows_ai_delta (s : Refs) (env : MessageEnv)
    (m : LiveServerMessage) :
  is_Some (inputTranscription m) →
  onmessage env m s = onmessage env (without_output m) s.
Proof.
  intros [txt Hi]. rewrite !onmessage_unfold. cbv zeta.
  assert (Ht : turn env (without_output m) = turn env m).
  { unfold turn, routeTranscription. simpl. by rewrite Hi. }
  rewrite Ht. reflexivity.
Qed.

Lemma user_delta_shadows_ai_delta_witness :
  let m := {| inputTranscription := Some (Some "hello");
              outputTranscription := Some (Some "Hi");
              turnComplete := false; interrupted := false;
              modelTurn := None |} in
  is_Some (inputTranscription m) ∧
  log (transcript (state_of (onmessage (at_time 0 None) m live_session))) =
    [Some {| id := "k3x9q2a"; sender := user; text := "hello"; isFinal := false |}].
Proof.
  intros m. assert (Hi : is_Some (inputTranscription m)) by (by eexists).
  split; [exact Hi|].
  rewrite (user_delta_shadows_ai_delta live_session (at_time 0 None) m Hi).
  reflexivity.
Defined.

Lemma routeAudio_thrown env m s e :
  outcome_of (routeAudio env m s) = thrown e →
  audioSourcesRef (playback (state_of (routeAudio env m s))) =
    audioSourcesRef (playback s) ∧
  sourcesCreated (playback (state_of (routeAudio env m s))) =
    sourcesCreated (playback s) ∧
  Forall (λ c, is_source_call c = false) (effects_of (routeAudio env m s)) ∧
  (e = DecodeFailure ∨ e = TypeError).
Proof.
  destruct m as [it ot tc intr [[[[|[[[|c data]|]] ps]|]]|]],
    env as [now gid [d|]], s as [tr [[ctx|] [g|] ns src sc] cap ses], intr;
    cbn; intros [= <-] || (intros Habs; discriminate Habs);
    repeat split; auto; repeat constructor.
Qed.

(** X10.  Whenever [onmessage] ends with an exception (the audio payload
    does not decode, or [modelTurn] has no [parts]), the transcript part of
    the message has been applied and the observer has been handed the
    updated log; no source has been started or stopped and the live set is
    as it was, even if the message carried [interrupted: true]: the
    interruption at lines 229-233 is not reached. *)
Theorem failed_message_stops_nothing (s : Refs) (env : MessageEnv)
    (m : LiveServerMessage) (e : Exn) :
  outcome_of (onmessage env m s) = thrown e →
  let updated := turn env m (transcript s) in
  transcript (state_of (onmessage env m s)) = updated ∧
  (∃ rest, effects_of (onmessage env m s) =
             onTranscriptionUpdate (transcriptionsRef updated) (log updated)
               :: rest ∧
           Forall (λ c, is_source_call c = false) rest ∧
           Forall (λ c, is_notification c = false) rest) ∧
  audioSourcesRef (playback (state_of (onmessage env m s))) =
    audioSourcesRef (playback s) ∧
  sourcesCreated (playback (state_of (onmessage env m s))) =
    sourcesCreated (playback s) ∧
  (e = DecodeFailure ∨ e = TypeError).
Proof.
  intros Hthrown updated. split; [apply onmessage_transcript|].
  revert Hthrown. rewrite onmessage_unfold. cbv zeta.
  unfold outcome_of at 1, state_of at 1 2, effects_of at 1. cbn [fst snd].
  intros Hthrown.
  destruct (routeAudio_thrown env m _ e Hthrown) as (H1 & H2 & H3 & H4).
  split; [|split; [exact H1|split; [exact H2|exact H4]]].
  eexists. split; [reflexivity|]. split; [exact H3|]. apply routeAudio_silent.
Qed.

(** The chunk does not decode and the message also says [interrupted]:
    the two queued sources keep playing. *)
Lemma failed_message_stops_nothing_witness :
  let r := onmessage (at_time 300 None) (chunk "????" true) queued_session in
  outcome_of r = thrown DecodeFailure ∧
  effects_of r = [onTranscriptionUpdate [] []; decode "????"] ∧
  audioSourcesRef (playback queued_session) = [0; 1]%nat ∧
  audioSourcesRef (playback (state_of r)) = [0; 1]%nat.
Proof.
  intros r. split; [reflexivity|]. split; [reflexivity|].
  split; [reflexivity|]. subst r.
  rewrite (proj1 (proj2 (proj2 (failed_message_stops_nothing queued_session
                           (at_time 300 None) (chunk "????" true)
                           DecodeFailure eq_refl)))).
  reflexivity.
Defined.

(** ** After teardown *)

(** X11.  After teardown, whichever trigger caused it, a message that still
    arrives is not played: [onmessage] applies its transcript part and
    reports the log, and that is all; nothing is decoded, no source is
    started or stopped, and no ref outside the transcript changes, whatever
    the message carries. *)
Theorem late_message_is_not_played (s : Refs) (t : Trigger) (env : MessageEnv)
    (m : LiveServerMessage) :
  let stopped := state_of (fire t s) in
  state_of (onmessage env m stopped) = with_transcript (turn env m) stopped ∧
  effects_of (onmessage env m stopped) =
    [onTranscriptionUpdate (transcriptionsRef (turn env m (transcript s)))
                           (log (turn env m (transcript s)))].
Proof.
  intros stopped. subst stopped. rewrite (proj1 (fire_run t s)).
  rewrite onmessage_unfold. cbv zeta.
  unfold state_of, effects_of. cbn [fst snd].
  unfold routeAudio, audioDataOf.
  destruct (modelTurn m) as [[[[|[[data|]] ps]|]]|];
    rewrite ?bind_ret, ?bind_throw, ?bind_get; cbn [playback with_transcript torn_down outputAudioContextRef];
    rewrite ?bind_ret;
    destruct (interrupted m); unfold when; rewrite ?interrupt_run;
    split; reflexivity.
Qed.

Lemma emits_try_catch {A} (P : Effect → Prop) (m : M A) (h : Exn → M A) :
  emits P m → (∀ e, emits P (h e)) → emits P (try_catch m h).
Proof.
  intros Hm Hh s. specialize (Hm s). unfold try_catch, effects_of in *.
  destruct (m s) as [[[a|e] s1] t1]; simpl in *; [done|].
  specialize (Hh e s1). unfold effects_of in Hh.
  destruct (h e s1) as [[r s2] t2]; simpl in *. by apply Forall_app.
Qed.

Lemma fire_silent t : emits (λ e, is_notification e = false) (fire t).
Proof.
  destruct t; unfold fire, stopSession, closeSession, onerror, onclose,
    cleanup, closeContext;
    repeat first [apply emits_try_catch; [|intros ?] | emits_step].
Qed.

(** X12.  Teardown leaves the transcript alone: after [stopSession],
    [onerror] or [onclose] the log, the Transcription objects and both
    "current" refs are what they were, and the observer is not called. *)
Theorem teardown_keeps_transcript (s : Refs) (t : Trigger) :
  transcript (state_of (fire t s)) = transcript s ∧
  Forall (λ e, is_notification e = false) (effects_of (fire t s)).
Proof. split; [apply fire_transcript | apply fire_silent]. Qed.

(** ** Tracks across a camera switch *)

Lemma switchCamera_stream dev acquired s stream oldTrack others :
  mediaStreamRef (capture s) = Some stream →
  getVideoTracks stream = oldTrack :: others →
  mediaStreamRef (capture (state_of (switchCamera dev acquired s))) =
    Some (match acquired with
          | None => stopTrack (trackId oldTrack) stream
          | Some newStream =>
              let removed :=
                removeTrack (trackId oldTrack)
                  (stopTrack (trackId oldTrack) stream) in
              match getVideoTracks newStream with
              | [] => removed
              | newTrack :: _ => addTrack newTrack removed
              end
          end).
Proof.
  intros Hs Hv. unfold switchCamera. rewrite bind_get, Hs, Hv.
  rewrite bind_call, bind_modify, bind_call.
  destruct acquired as [newStream|]; [|reflexivity].
  cbv zeta. rewrite bind_modify.
  destruct (getVideoTracks newStream) as [|newTrack more]; [reflexivity|].
  rewrite bind_modify.
  destruct (videoElementRef (capture s)) as [el|];
    [rewrite bind_call | rewrite bind_ret]; reflexivity.
Qed.

Lemma audio_tracks_removed (tid : nat) (l : list MediaStreamTrack) :
  (∀ t, t ∈ l → kind t = audio → trackId t ≠ tid) →
  filter (λ t, kind t = audio)
    (filter (λ t, trackId t ≠ tid)
       ((λ t, if decide (trackId t = tid) then stopped t else t) <$> l)) =
  filter (λ t, kind t = audio) l ∧
  filter (λ t, kind t = audio)
    ((λ t, if decide (trackId t = tid) then stopped t else t) <$> l) =
  filter (λ t, kind t = audio) l.
Proof.
  induction l as [|t l IH]; intros Hl; [done|].
  destruct IH as [IH1 IH2].
  { intros t' Ht'. apply Hl. by apply list_elem_of_further. }
  rewrite fmap_cons. destruct (decide (trackId t = tid)) as [Heq|Hne].
  - assert (Hk : kind t ≠ audio).
    { intros Hk. by apply (Hl t (list_elem_of_here _ _) Hk). }
    rewrite (filter_cons_False (λ t, trackId t ≠ tid)) by (simpl; tauto).
    rewrite !(filter_cons_False (λ t, kind t = audio)) by done.
    done.
  - rewrite (filter_cons_True (λ t, trackId t ≠ tid)) by done.
    destruct (decide (kind t = audio)) as [Hk|Hk].
    + rewrite !(filter_cons_True (λ t, kind t = audio)) by done.
      by rewrite IH1, IH2.
    + by rewrite !(filter_cons_False (λ t, kind t = audio)) by done.
Qed.

Lemma audio_tracks_added (t : MediaStreamTrack) (stream : MediaStream) :
  kind t = video → audio_tracks (addTrack t stream) = audio_tracks stream.
Proof.
  intros Hk. unfold audio_tracks, addTrack. simpl.
  destruct (decide (trackId t ∈ trackId <$> tracks stream)); [done|].
  rewrite filter_app, filter_cons_False by (rewrite Hk; done).
  by rewrite filter_nil, app_nil_r.
Qed.

Lemma first_video_track stream t more :
  getVideoTracks stream = t :: more → kind t = video.
Proof.
  intros Hv. assert (Hin : t ∈ getVideoTracks stream)
    by (rewrite Hv; apply list_elem_of_here).
  by apply list_elem_of_filter in Hin as [Hk _].
Qed.

(** X13.  [switchCamera] never touches the microphone: provided no audio
    track shares its id with the video track being replaced, the audio
    tracks of the session stream, live or not, are the same after the call,
    whether the new camera is acquired or not; the stream keeps its
    identity, and playback and transcript are untouched. *)
Theorem switchCamera_keeps_audio (s : Refs) (newDeviceId : string)
    (acquired : option MediaStream) (stream : MediaStream)
    (oldTrack : MediaStreamTrack) (others : list MediaStreamTrack) :
  mediaStreamRef (capture s) = Some stream →
  getVideoTracks stream = oldTrack :: others →
  (∀ t, t ∈ tracks stream → kind t = audio → trackId t ≠ trackId oldTrack) →
  ∃ stream',
    mediaStreamRef (capture (state_of (switchCamera newDeviceId acquired s))) =
      Some stream' ∧
    streamId stream' = streamId stream ∧
    audio_tracks stream' = audio_tracks stream ∧
    playback (state_of (switchCamera newDeviceId acquired s)) = playback s ∧
    transcript (state_of (switchCamera newDeviceId acquired s)) = transcript s.
Proof.
  intros Hs Hv Hids.
  destruct (audio_tracks_removed (trackId oldTrack) (tracks stream) Hids)
    as [Hrem Hstop].
  eexists. split; [by apply (switchCamera_stream _ _ _ _ _ _ Hs Hv)|].
  split; [|split; [|split;
    [apply switchCamera_playback | apply switchCamera_transcript]]].
  - destruct acquired as [newStream|]; [|done].
    cbv zeta. by destruct (getVideoTracks newStream).
  - destruct acquired as [newStream|]; [|exact Hstop].
    cbv zeta. destruct (getVideoTracks newStream) as [|newTrack more] eqn:Hnew;
      [exact Hrem|].
    rewrite audio_tracks_added by (by eapply first_video_track). exact Hrem.
Qed.

Lemma switchCamera_keeps_audio_witness :
  mediaStreamRef (capture live_session) = Some camera ∧
  ∃ stream',
    mediaStreamRef (capture (state_of (switchCamera "cam2" None live_session))) =
      Some stream' ∧
    audio_tracks stream' =
      [ {| trackId := 10; kind := audio; readyState := live |} ].
Proof.
  split; [reflexivity|].
  destruct (switchCamera_keeps_audio live_session "cam2" None camera
              {| trackId := 11; kind := video; readyState := live |} []
              eq_refl eq_refl) as (stream' & H1 & _ & H2 & _).
  - intros t Ht Hk. apply list_elem_of_In in Ht. simpl in Ht.
    destruct Ht as [<-|[<-|[]]]; [simpl; lia | discriminate Hk].
  - exists stream'. split; [exact H1|]. by rewrite H2.
Defined.

(** X14.  After a successful switch to a camera whose track has another id
    than the old one, no track of the session stream carries the old
    track's id any more, the stream has a track with the new track's id,
    and the UI is handed the same stream object as before. *)
Theorem switchCamera_replaces_track (s : Refs) (newDeviceId : string)
    (stream newStream : MediaStream) (oldTrack newTrack : MediaStreamTrack)
    (others more : list MediaStreamTrack) :
  mediaStreamRef (capture s) = Some stream →
  getVideoTracks stream = oldTrack :: others →
  getVideoTracks newStream = newTrack :: more →
  trackId newTrack ≠ trackId oldTrack →
  let r := switchCamera newDeviceId (Some newStream) s in
  ∃ stream',
    mediaStreamRef (capture (state_of r)) = Some stream' ∧
    (trackId oldTrack ∉ trackId <$> tracks stream') ∧
    trackId newTrack ∈ trackId <$> tracks stream' ∧
    localStream (session (state_of r)) = Some (streamId stream).
Proof.
  intros Hs Hv Hnew Hne r. subst r.
  eexists. split; [by apply (switchCamera_stream _ _ _ _ _ _ Hs Hv)|].
  cbv zeta. rewrite Hnew.
  assert (Hgone : ∀ l : list MediaStreamTrack,
    trackId oldTrack ∉ trackId <$> filter (λ t, trackId t ≠ trackId oldTrack) l).
  { intros l Hin. apply list_elem_of_fmap in Hin as (t & Ht & Hin).
    apply list_elem_of_filter in Hin as [Hid _]. congruence. }
  split; [|split].
  - unfold addTrack, removeTrack. simpl. case_decide; [apply Hgone|].
    rewrite fmap_app. intros [Hin|Hin]%elem_of_app; [by apply Hgone in Hin|].
    simpl in Hin. apply list_elem_of_singleton in Hin. congruence.
  - unfold addTrack. simpl. case_decide; [done|].
    rewrite fmap_app. apply elem_of_app. right. apply list_elem_of_here.
  - unfold switchCamera. rewrite bind_get, Hs, Hv.
    rewrite bind_call, bind_modify, bind_call. cbv zeta.
    rewrite bind_modify, Hnew, bind_modify.
    destruct (videoElementRef (capture s)) as [el|];
      [rewrite bind_call | rewrite bind_ret]; reflexivity.
Qed.

Lemma switchCamera_replaces_track_witness :
  let back := {| streamId := 9;
                 tracks := [ {| trackId := 12; kind := video; readyState := live |} ] |} in
  mediaStreamRef (capture live_session) = Some camera ∧
  ∃ stream',
    mediaStreamRef (capture (state_of
      (switchCamera "cam2" (Some back) live_session))) = Some stream' ∧
    trackId <$> tracks stream' = [10; 12]%nat.
Proof.
  intros back. split; [reflexivity|].
  destruct (switchCamera_replaces_track live_session "cam2" camera back
              {| trackId := 11; kind := video; readyState := live |}
              {| trackId := 12; kind := video; readyState := live |} [] []
              eq_refl eq_refl eq_refl) as (stream' & H1 & _).
  - simpl. lia.
  - exists stream'. split; [exact H1|].
    assert (Hs : Some stream' = Some (addTrack
              {| trackId := 12; kind := video; readyState := live |}
              (removeTrack 11 (stopTrack 11 camera))))
      by (rewrite <- H1; reflexivity).
    injection Hs as ->. reflexivity.
Defined.

(** ** The life of a session *)

Lemma torn_down_session f s : torn_down (with_session f s) = torn_down s.
Proof. reflexivity. Qed.

(** X15.  A transport that opens after teardown finds no input context and
    no media stream: [onopen] sets [isConnected] (and clears
    [isConnecting]) and returns at line 164, so no timer and no script
    processor are created.  The hook then reports a connection although it
    holds nothing; a following [stopSession] has nothing to release and
    clears the flag again. *)
Theorem late_open_only_sets_flag (s : Refs) (t : Trigger) (env : OpenEnv) :
  let stopped := state_of (fire t s) in
  onopen env stopped = (returned tt, with_session opened stopped, []) ∧
  isConnected (session (state_of (onopen env stopped))) = true ∧
  stopSession (state_of (onopen env stopped)) = (returned tt, stopped, []).
Proof.
  intros stopped. subst stopped. rewrite (proj1 (fire_run t s)).
  assert (Hopen : onopen env (torn_down s) =
                  (returned tt, with_session opened (torn_down s), [])).
  { unfold onopen. rewrite bind_modify, bind_get. reflexivity. }
  rewrite Hopen. split; [done|]. split; [done|].
  unfold state_of. cbn [fst snd].
  unfold stopSession. rewrite bind_assoc, bind_get. cbn [closeSession session
    with_session opened sessionPromiseRef torn_down].
  rewrite bind_ret, cleanup_run, torn_down_session, torn_down_idemp.
  f_equal. apply (releases_torn_down s).
Qed.

Lemma onopen_run env s :
  is_Some (inputAudioContextRef (capture s)) →
  is_Some (mediaStreamRef (capture s)) →
  is_Some (videoElementRef (capture s)) →
  is_Some (canvasElementRef (capture s)) →
  context2d env = true →
  onopen env s =
    (returned tt,
     with_capture (set_scriptProcessorRef (Some (processorNode env)))
       (with_capture (set_frameIntervalRef (Some (intervalId env)))
          (with_session opened s)),
     []).
Proof.
  intros [ic Hic] [ms Hms] [ve Hve] [ce Hce] H2d.
  unfold onopen. rewrite bind_modify, bind_get.
  cbn [capture with_session]. rewrite Hic, Hms.
  unfold startVideoFrameStreaming. rewrite bind_assoc, bind_get.
  cbn [capture with_session]. rewrite Hve, Hce, H2d. unfold when.
  rewrite bind_modify. reflexivity.
Qed.

(** X16.  Pressing the button on an idle hook, the transport opening, and
    pressing the button again: the second press closes the session and
    releases, once each and in this order, the frame timer, the script
    processor, every track of the acquired stream and both audio contexts;
    afterwards nothing is left to release and the hook is idle. *)
Theorem session_releases_what_it_acquired (s : Refs) (t : Trigger) (app : App)
    (env env' : StartEnv) (oenv : OpenEnv) (stream : MediaStream) (sn : nat) :
  acquiredStream env = Some stream → connected env = resolves sn →
  context2d oenv = true → intervalId oenv ≠ 0%nat →
  let s_stopped := state_of (fire t s) in
  let s_started := state_of (handleToggleSession env app s_stopped) in
  let s_open := state_of (onopen oenv s_started) in
  let s_final := state_of (handleToggleSession env' app s_open) in
  outcome_of (handleToggleSession env' app s_open) = returned tt ∧
  effects_of (handleToggleSession env' app s_open) =
    [sessionClose sn; clearInterval (intervalId oenv);
     processorDisconnect (processorNode oenv)]
    ++ ((λ tr, trackStop (trackId tr)) <$> tracks stream)
    ++ [contextClose {| sampleRate := 16000; state := running |};
        contextClose {| sampleRate := 24000; state := running |}] ∧
  releases s_final = [] ∧
  sessionPromiseRef (session s_final) = None ∧
  is_idle s_final.
Proof.
  intros Hacq Hconn H2d Htimer s_stopped s_started s_open s_final.
  assert (Htruthy : truthy_number (intervalId oenv) = true).
  { unfold truthy_number. by destruct (intervalId oenv). }
  assert (Hstopped : s_stopped = torn_down s) by apply (proj1 (fire_run t s)).
  assert (Hstarted : s_started = acquired_refs env stream (connecting (torn_down s))).
  { subst s_started. rewrite Hstopped. unfold handleToggleSession.
    rewrite bind_get. cbn [session torn_down isConnected isConnecting].
    rewrite startSession_run by (by split). by rewrite Hacq. }
  assert (Hopen : s_open =
    with_capture (set_scriptProcessorRef (Some (processorNode oenv)))
      (with_capture (set_frameIntervalRef (Some (intervalId oenv)))
         (with_session opened s_started))).
  { subst s_open. rewrite onopen_run; [done|rewrite Hstarted; by eexists..|done]. }
  assert (Hrun : handleToggleSession env' app s_open =
    (returned tt, torn_down s_open, sessionClose sn :: releases s_open)).
  { unfold handleToggleSession. rewrite bind_get.
    replace (isConnected (session s_open)) with true
      by (by rewrite Hopen).
    unfold stopSession. rewrite bind_assoc, bind_get.
    replace (sessionPromiseRef (session s_open)) with (Some (resolves sn))
      by (by rewrite Hopen, Hstarted, <- Hconn).
    unfold closeSession, try_catch, bind, call. by rewrite cleanup_run. }
  subst s_final. rewrite Hrun. unfold outcome_of, effects_of, state_of.
  cbn [fst snd]. split; [done|]. split.
  - rewrite Hopen, Hstarted. unfold releases. cbn. rewrite Htruthy. reflexivity.
  - split; [apply releases_torn_down|]. by split.
Qed.

Lemma session_releases_what_it_acquired_witness :
  let env := {| acquiredStream := Some camera; connected := resolves 7;
                videoElement := 2; canvasElement := 3; gainNode := 4 |} in
  let oenv := {| context2d := true; intervalId := 5; processorNode := 6 |} in
  let app := {| videoDevices := ["cam1"; "cam2"]; currentDeviceIndex := 0 |} in
  let s_open := state_of (onopen oenv
                  (state_of (handleToggleSession env app
                     (state_of (fire stop initial))))) in
  effects_of (handleToggleSession env app s_open) =
    [sessionClose 7; clearInterval 5; processorDisconnect 6;
     trackStop 10; trackStop 11;
     contextClose {| sampleRate := 16000; state := running |};
     contextClose {| sampleRate := 24000; state := running |}].
Proof.
  intros env oenv app s_open.
  assert (Htimer : intervalId oenv ≠ 0%nat) by (simpl; lia).
  exact (proj1 (proj2 (session_releases_what_it_acquired initial stop app env env
                         oenv camera 7 eq_refl eq_refl eq_refl Htimer))).
Defined.

(** ** The camera button *)

Lemma presses_index k app :
  (1 < length (videoDevices app))%nat →
  videoDevices (presses k app) = videoDevices app ∧
  currentDeviceIndex (presses k app) =
    match k with
    | O => currentDeviceIndex app
    | S _ => ((currentDeviceIndex app + k) mod length (videoDevices app))%nat
    end.
Proof.
  intros Hn. induction k as [|k [IHd IHi]]; [done|].
  unfold presses in *. rewrite Nat.iter_succ.
  set (p := Nat.iter k _ app) in *.
  apply Nat.ltb_lt in Hn as Hb.
  unfold handleSwitchCamera. rewrite IHd, Hb.
  cbn [fst videoDevices currentDeviceIndex]. split; [done|]. rewrite IHi.
  destruct k as [|k]; [done|].
  rewrite Nat.Div0.add_mod_idemp_l. f_equal. lia.
Qed.

(** X17.  The camera button: with no or one video input it changes
    nothing and asks nothing of the hook.  With more it moves to the next
    input, wrapping around after the last, so the index stays within the
    list, the device it names always exists, and after as many presses as
    there are inputs the component is back on the input it started from. *)
Theorem camera_button_cycles (app : App) (acquired : option MediaStream) :
  ((length (videoDevices app) ≤ 1)%nat →
     handleSwitchCamera acquired app = (app, ret tt)) ∧
  ((1 < length (videoDevices app))%nat →
     let next := (handleSwitchCamera acquired app).1 in
     videoDevices next = videoDevices app ∧
     (currentDeviceIndex next < length (videoDevices app))%nat ∧
     is_Some (videoDevices app !! currentDeviceIndex next) ∧
     ((currentDeviceIndex app < length (videoDevices app))%nat →
        currentDeviceIndex (presses (length (videoDevices app)) app) =
          currentDeviceIndex app)).
Proof.
  split.
  - intros Hn. unfold handleSwitchCamera.
    by rewrite (proj2 (Nat.ltb_ge _ _) Hn).
  - intros Hn next. subst next. unfold handleSwitchCamera.
    rewrite (proj2 (Nat.ltb_lt _ _) Hn). cbn [fst videoDevices currentDeviceIndex].
    assert (Hlt : ((currentDeviceIndex app + 1) mod length (videoDevices app)
                   < length (videoDevices app))%nat)
      by (apply Nat.mod_upper_bound; lia).
    split; [done|]. split; [done|]. split; [by apply lookup_lt_is_Some|].
    intros Hi. destruct (presses_index (length (videoDevices app)) app Hn) as [_ ->].
    destruct (length (videoDevices app)) as [|n] eqn:Hlen; [lia|].
    replace (currentDeviceIndex app + S n)%nat
      with (currentDeviceIndex app + 1 * S n)%nat by lia.
    rewrite Nat.Div0.mod_add. apply Nat.mod_small. lia.
Qed.

Lemma camera_button_cycles_witness :
  let app := {| videoDevices := ["front"; "back"; "usb"]; currentDeviceIndex := 2 |} in
  (1 < length (videoDevices app))%nat ∧
  currentDeviceIndex (handleSwitchCamera None app).1 = 0%nat ∧
  currentDeviceIndex (presses 3 app) = 2%nat.
Proof.
  intros app. assert (Hn : (1 < length (videoDevices app))%nat) by (simpl; lia).
  split; [exact Hn|]. split; [reflexivity|].
  apply (proj2 (camera_button_cycles app None) Hn). simpl. lia.
Defined.

(** X18.  While a session is being connected the session button does
    nothing: after a press that started a session and acquired the media
    stream, a further press before [onopen] neither starts a second session
    nor stops the first, whatever the platform would answer. *)
Theorem button_is_dead_while_connecting (s : Refs) (app : App) (env : StartEnv)
    (stream : MediaStream) :
  is_idle s → acquiredStream env = Some stream →
  let s1 := state_of (handleToggleSession env app s) in
  isConnecting (session s1) = true ∧
  ∀ env' app', handleToggleSession env' app' s1 = (returned tt, s1, []).
Proof.
  intros [Hc Hg] Hacq s1.
  assert (Hs1 : s1 = acquired_refs env stream (connecting s)).
  { subst s1. unfold handleToggleSession. rewrite bind_get, Hc, Hg.
    rewrite startSession_run by (by split). by rewrite Hacq. }
  split; [by rewrite Hs1|]. intros env' app'.
  unfold handleToggleSession. rewrite bind_get.
  replace (isConnected (session s1)) with false by (by rewrite Hs1).
  replace (isConnecting (session s1)) with true by (by rewrite Hs1).
  reflexivity.
Qed.

Lemma button_is_dead_while_connecting_witness :
  let env := {| acquiredStream := Some camera; connected := resolves 7;
                videoElement := 2; canvasElement := 3; gainNode := 4 |} in
  let app := {| videoDevices := ["front"; "back"]; currentDeviceIndex := 0 |} in
  let s1 := state_of (handleToggleSession env app initial) in
  is_idle initial ∧ handleToggleSession env app s1 = (returned tt, s1, []).
Proof.
  intros env app s1. assert (Hidle : is_idle initial) by (by split).
  split; [exact Hidle|].
  exact (proj2 (button_is_dead_while_connecting initial app env camera
                  Hidle eq_refl) env app).
Defined.

(** X19.  A new session does not inherit the playback clock of the previous
    one: after teardown and a [startSession] that acquires the stream, the
    first chunk, handled at a context time [now >= 0], starts at [now]. *)
Theorem new_session_starts_at_now (s : Refs) (t : Trigger)
    (deviceId : option string) (env : StartEnv) (stream : MediaStream)
    (menv : MessageEnv) (m : LiveServerMessage) (d : Z) :
  acquiredStream env = Some stream → enqueues d (menv, m) →
  0 ≤ currentTime menv →
  let s1 := state_of (startSession deviceId env (state_of (fire t s))) in
  starts (effects_of (onmessage menv m s1)) = [currentTime menv] ∧
  nextStartTimeRef (playback (state_of (onmessage menv m s1))) =
    currentTime menv + d.
Proof.
  intros Hacq Hd Hnow s1.
  assert (Hs1 : s1 = acquired_refs env stream (connecting (torn_down s))).
  { subst s1. rewrite (proj1 (fire_run t s)).
    rewrite startSession_run by (by split). by rewrite Hacq. }
  assert (Hr : output_ready s1) by (rewrite Hs1; split; by eexists).
  destruct (onmessage_enqueues d menv m s1 Hd Hr) as [Hp Hs].
  rewrite Hs, Hp, Hs1. simpl. split; [f_equal; lia | lia].
Qed.

Lemma new_session_starts_at_now_witness :
  let env := {| acquiredStream := Some camera; connected := resolves 8;
                videoElement := 2; canvasElement := 3; gainNode := 4 |} in
  let s1 := state_of (startSession None env (state_of (fire stop queued_session))) in
  nextStartTimeRef (playback queued_session) = 10000 ∧
  starts (effects_of (onmessage (at_time 50 (Some 480)) (chunk "AAAA" false) s1))
    = [50].
Proof.
  intros env s1. split; [reflexivity|].
  assert (Hd : enqueues 480 (at_time 50 (Some 480), chunk "AAAA" false)).
  { repeat split. eexists. eexists {| inlineData := Some _ |}, []. done. }
  assert (Hnow : 0 ≤ currentTime (at_time 50 (Some 480))) by (simpl; lia).
  exact (proj1 (new_session_starts_at_now queued_session stop None env camera
                  _ _ 480 eq_refl Hd Hnow)).
Defined.

(** X20.  A [modelTurn] without audio in its first part (an empty [parts]
    array, a first part without inline data, or inline data that is the
    empty string) is handled exactly like a message without [modelTurn]:
    nothing is decoded or scheduled and the clock is not touched. *)
Theorem empty_payload_is_ignored (s : Refs) (env : MessageEnv)
    (m : LiveServerMessage) (ps : list Part) :
  modelTurn m = Some {| parts := Some ps |} →
  default "" (head ps ≫= inlineData) = "" →
  onmessage env m s = onmessage env (without_audio m) s.
Proof.
  intros Hm Hdata. rewrite !onmessage_unfold. cbv zeta.
  change (turn env (without_audio m)) with (turn env m).
  set (s1 := with_transcript (turn env m) s).
  assert (Hroute : routeAudio env m s1 = routeAudio env (without_audio m) s1);
    [|by rewrite Hroute].
  unfold routeAudio, audioDataOf. rewrite Hm. simpl.
  destruct ps as [|[[data|]] ps]; simpl in Hdata; [done| |done].
  subst data. rewrite !bind_ret, !bind_get.
  by destruct (outputAudioContextRef (playback s1)),
              (outputGainNodeRef (playback s1)).
Qed.

Lemma empty_payload_is_ignored_witness :
  effects_of (onmessage (at_time 100 (Some 480)) (chunk "" false) live_session) =
    [onTranscriptionUpdate [] []] ∧
  nextStartTimeRef (playback (state_of
    (onmessage (at_time 100 (Some 480)) (chunk "" false) live_session))) = 0.
Proof.
  rewrite (empty_payload_is_ignored live_session (at_time 100 (Some 480))
             (chunk "" false) [ {| inlineData := Some "" |} ] eq_refl eq_refl).
  split; reflexivity.
Defined.

(** X21.  When one message carries both an audio chunk and
    [interrupted: true], the chunk is decoded and started first and the
    interruption then stops every source of the live set including the one
    just started: the live set ends empty and the clock at 0, so the chunk
    of an interrupting message is not left playing. *)
Theorem interrupting_chunk_is_stopped (s : Refs) (env : MessageEnv)
    (m : LiveServerMessage) (data : string) (d : Z) :
  reachable s → output_ready s → carries_audio m data →
  decodeAudioData env = Some d → interrupted m = true →
  let h := sourcesCreated (playback s) in
  effects_of (onmessage env m s) =
    [onTranscriptionUpdate (transcriptionsRef (turn env m (transcript s)))
                           (log (turn env m (transcript s)));
     decode data;
     sourceStart h (Z.max (nextStartTimeRef (playback s)) (currentTime env))]
    ++ (sourceStop <$> (audioSourcesRef (playback s) ++ [h])) ∧
  audioSourcesRef (playback (state_of (onmessage env m s))) = [] ∧
  nextStartTimeRef (playback (state_of (onmessage env m s))) = 0.
Proof.
  intros [Hnd Hb]%reachable_live Hr Hm Hd Hi h.
  assert (Hfresh : h ∉ audioSourcesRef (playback s)).
  { intros Hin. specialize (Hb _ Hin). subst h. lia. }
  rewrite onmessage_unfold. cbv zeta.
  assert (Hr' : output_ready (with_transcript (turn env m) s)) by exact Hr.
  rewrite (routeAudio_scheduled env m data d) by done. rewrite Hi.
  unfold effects_of, state_of. cbn [fst snd].
  split; [|done]. simpl. unfold set_add. by rewrite decide_False.
Qed.

Lemma interrupting_chunk_is_stopped_witness :
  reachable queued_session ∧
  effects_of (onmessage (at_time 300 (Some 480)) (chunk "CCCC" true)
                queued_session) =
    [onTranscriptionUpdate [] []; decode "CCCC"; sourceStart 2%nat 10000;
     sourceStop 0%nat; sourceStop 1%nat; sourceStop 2%nat].
Proof.
  assert (Hready : output_ready queued_session)
    by (split; eexists; reflexivity).
  assert (Hm : carries_audio (chunk "CCCC" true) "CCCC")
    by (by exists {| inlineData := Some "CCCC" |}, []).
  split; [exact queued_session_reachable|].
  exact (proj1 (interrupting_chunk_is_stopped queued_session
                  (at_time 300 (Some 480)) (chunk "CCCC" true) "CCCC" 480
                  queued_session_reachable Hready Hm eq_refl eq_refl)).
Defined.
